(** * QuickXorHash: the streaming implementation against its reference

    A shallow embedding of [quick_xor_hash.cpp].  Arrays of [uint8_t] are
    lists of [Z] whose elements lie in [0, 256); array reads and writes by
    index are stdpp's total lookup [l !!! i] and insert [<[i:=x]> l] (every
    index the source computes is in range, which the lemmas below establish
    where it matters).  Wrap-around of [uint8_t], [uint64_t] and [size_t] is
    written out with [uint8] and [uint64].  The [while] loop over the input
    stream is defined by well-founded recursion on the bytes still pending. *)

From Stdlib Require Import ZArith List Lia String Ascii Bool Permutation.
From Stdlib.Strings Require Import Byte.
From stdpp Require Import base list.
From Equations Require Import Equations.

Local Open Scope Z_scope.

(** ** Machine integers *)

(** Conversion to [uint8_t]: the low eight bits. *)
Definition uint8 (z : Z) : Z := z mod 2 ^ 8.

(** Arithmetic in [uint64_t] and in [size_t] (64 bits). *)
Definition uint64 (z : Z) : Z := z mod 2 ^ 64.

(** The value of an input byte as an [uint8_t]. *)
Definition byte_val (b : byte) : Z := Z.of_N (Byte.to_N b).

(** ** Blocks *)

Definition BYTES_PER_BLOCK : nat := 20.

(** [std::array<uint8_t, BYTES_PER_BLOCK>] *)
Abbreviation block_t := (list Z) (only parsing).

(** The body of the [for] loop of [rotate_block], run over the elements of
    the array in index order with the carry threaded through.  The shift
    count [sizeof(uint8_t) * 8 - shift] is computed in [size_t], so it wraps
    when [shift] exceeds 8; a right shift by such a count is taken as the
    mathematical shift, which loses every bit of the operand. *)
Fixpoint rotate_loop (shift carry : Z) (block : list Z) : list Z * Z :=
  match block with
  | [] => ([], carry)
  | b :: rest =>
      let temp_carry := uint8 (Z.shiftr b (uint64 (8 - shift))) in
      let b' := uint8 (Z.lor (Z.shiftl b shift) carry) in
      let '(rest', carry') := rotate_loop shift temp_carry rest in
      (b' :: rest', carry')
  end.

Definition rotate_block (block : block_t) (shift : Z) : block_t :=
  let '(block', carry) := rotate_loop shift 0 block in
  <[0%nat := Z.lor (block' !!! 0%nat) carry]> block'.

(** [std::swap(block[i], block[j])] *)
Definition swap (block : list Z) (i j : nat) : list Z :=
  <[j := block !!! i]> (<[i := block !!! j]> block).

Definition reverse_block (block : block_t) : block_t :=
  foldl (fun blk i => swap blk i (length blk - i - 1)) block
        (seq 0 (length block / 2)).

(** [lhs[i] ^= rhs[i]] for every index of [lhs]; both arrays have the same
    size in every call. *)
Definition xor (lhs rhs : block_t) : block_t := zip_with Z.lxor lhs rhs.

(** ** Input streams *)

(** A [std::istream]: whether it is still [good()], and the bytes it will
    deliver.  Exceptions are not enabled on the stream (the source never
    calls [exceptions]), so a failure only clears [good]. *)
Record istream := mk_istream { good : bool; pending : list byte }.

(** [input.read(buf, n)]: the bytes stored into [buf] (their number is
    [gcount()]) and the stream afterwards.  A stream that is not good
    extracts nothing; reaching the end before [n] bytes sets [eofbit] and
    [failbit]. *)
Definition read (input : istream) (n : nat) : list byte * istream :=
  if good input then
    let got := take n (pending input) in
    (got, {| good := Nat.eqb (length got) n; pending := drop n (pending input) |})
  else ([], input).

(** A stream over a byte sequence, freshly opened. *)
Definition stream_of (rgb : list byte) : istream :=
  {| good := true; pending := rgb |}.

(** ** The hash *)

Definition BLOCK_UNIT_SIZE : nat := BYTES_PER_BLOCK * 8.

(** The [while (loop)] of [quick_xor_hash]: [count] and [hash_data] when the
    loop ends.  [input_data] is uninitialised before the read; its tail is
    filled with zero whenever the read was short, and it is full otherwise. *)
Equations? read_loop (input : istream) (count : Z) (hash_data : list Z)
  : Z * list Z by wf (length (pending input)) lt :=
  read_loop input count hash_data with Logic.inspect (read input BLOCK_UNIT_SIZE) := {
    | exist _ (got, input') Hread
        with Logic.inspect (Nat.eqb (length got) BLOCK_UNIT_SIZE) := {
        | exist _ true Hfull =>
            let count := uint64 (count + Z.of_nat (length got)) in
            let input_data := byte_val <$> got in
            read_loop input' count (zip_with Z.lxor hash_data input_data)
        | exist _ false _ =>
            let count := uint64 (count + Z.of_nat (length got)) in
            let input_data :=
              (byte_val <$> got) ++ replicate (BLOCK_UNIT_SIZE - length got) 0 in
            (count, zip_with Z.lxor hash_data input_data) } }.
Proof.
  unfold read in Hread. destruct (good input); simplify_eq/=.
  apply Nat.eqb_eq in Hfull. rewrite length_take in Hfull.
  rewrite length_drop. change BLOCK_UNIT_SIZE with 160%nat in *. lia.
Qed.

(** The scatter loop: [blocks[blocks_index][byte_index] = hash_data[i]]. *)
Definition scatter (hash_data : list Z) : list block_t :=
  foldl (fun blocks i =>
           let mod_index := ((i * 11) mod BLOCK_UNIT_SIZE)%nat in
           let blocks_index := (mod_index mod 8)%nat in
           let byte_index := (mod_index / 8)%nat in
           <[blocks_index :=
               <[byte_index := hash_data !!! i]> (blocks !!! blocks_index)]> blocks)
        (replicate 8 (replicate BYTES_PER_BLOCK 0))
        (seq 0 BLOCK_UNIT_SIZE).

(** The combining loop.  [block] is a reference to [blocks[0]], so the
    running result lives in the array itself. *)
Definition combine (blocks : list block_t) : list block_t :=
  foldl (fun blocks i =>
           let blocks := <[i := rotate_block (blocks !!! i) (Z.of_nat i)]> blocks in
           <[0%nat := xor (blocks !!! 0%nat) (blocks !!! i)]> blocks)
        blocks (seq 1 (length blocks - 1)).

(** The loop that writes [count] into [length_block]. *)
Definition length_block (count : Z) : block_t :=
  foldl (fun lb i =>
           <[(8 - i - 1)%nat := uint8 (Z.shiftr count (Z.of_nat i * 8))]> lb)
        (replicate BYTES_PER_BLOCK 0) (seq 0 8).

(** Everything after the read loop. *)
Definition finish (count : Z) (hash_data : list Z) : block_t :=
  let blocks := combine (scatter hash_data) in
  let blocks := <[0%nat := reverse_block (blocks !!! 0%nat)]> blocks in
  let blocks := <[0%nat := xor (blocks !!! 0%nat) (length_block count)]> blocks in
  blocks !!! 0%nat.

(** [quick_xor_hash]: the read loop from a zero counter and a zero
    accumulator, then the stages above. *)
Definition quick_xor_hash (input : istream) : block_t :=
  let '(count, hash_data) := read_loop input 0 (replicate BLOCK_UNIT_SIZE 0) in
  finish count hash_data.

(** ** The command-line program *)

(** What a call either returns or throws ([std::exception::what]). *)
Inductive outcome (A : Type) : Type :=
| Returns (a : A)
| Throws (what : string).
Arguments Returns {A} a.
Arguments Throws {A} what.

(** The files that can be opened for reading, by name. *)
Abbreviation filesystem := (string -> option (list byte)) (only parsing).

(** [std::ifstream input(filename, std::ios::binary)]: a file that cannot be
    opened leaves the stream with [failbit] set; nothing is thrown. *)
Definition ifstream (fs : filesystem) (filename : string) : istream :=
  match fs filename with
  | Some content => {| good := true; pending := content |}
  | None => {| good := false; pending := [] |}
  end.

(** Neither the constructor of the stream nor [quick_xor_hash] contains a
    [throw], so the call always returns. *)
Definition quick_xor_hash_file (fs : filesystem) (filename : string)
  : outcome (list Z) :=
  let input := ifstream fs filename in
  Returns (quick_xor_hash input).

Definition hex_digit (d : Z) : ascii :=
  ascii_of_nat (Z.to_nat (if d <? 10 then 48 + d else 87 + d)).

(** [std::hex << std::setw(2) << std::setfill('0')] applied to a value
    below 256: two lowercase digits. *)
Definition hex2 (b : Z) : string :=
  String (hex_digit (b / 16)) (String (hex_digit (b mod 16)) EmptyString).

Definition endl : string := String (ascii_of_nat 10) EmptyString.

Record process := mk_process { exit_code : Z; stdout : string; stderr : string }.

(** [main]; [argv] holds the program name and its arguments, so [argc] is
    its length.  The digest is printed from [crbegin] to [crend]. *)
Definition main (fs : filesystem) (argv : list string) : process :=
  if negb (Nat.eqb (length argv) 2) then
    {| exit_code := 1; stdout := "";
       stderr := "Usage: quick_xor_hash.exe filename" ++ endl |}
  else
    match quick_xor_hash_file fs (nth 1 argv EmptyString) with
    | Returns result =>
        {| exit_code := 0;
           stdout := foldr (fun b out => hex2 b ++ out) "" (rev result) ++ endl;
           stderr := "" |}
    | Throws what =>
        {| exit_code := 2; stdout := ""; stderr := what ++ endl |}
    end%string.

(** ** Blocks as 160-bit numbers *)

(** The number a [block_t] holds: [rotate_block] carries the bits shifted
    out of [block[i]] into [block[i + 1]], so index 0 is the low-order
    byte. *)
Fixpoint Z_of_block (b : list Z) : Z :=
  match b with
  | [] => 0
  | x :: rest => x + 256 * Z_of_block rest
  end.

(** The [block_t] that holds a number. *)
Definition block_of_Z (v : Z) : block_t :=
  (fun k => uint8 (Z.shiftr v (8 * Z.of_nat k))) <$> seq 0 BYTES_PER_BLOCK.

(** Rotation of a 160-bit number to the left by [n] bits, the bits leaving
    at the top coming back in at the bottom. *)
Definition rotl160 (v n : Z) : Z :=
  let s := n mod 160 in
  Z.land (Z.lor (Z.shiftl v s) (Z.shiftr v (160 - s))) (Z.ones 160).

Definition is_byte (z : Z) : Prop := 0 <= z < 256.

(** A well-formed block: twenty bytes. *)
Definition wf_block (b : list Z) : Prop :=
  length b = BYTES_PER_BLOCK /\ Forall is_byte b.

(** ** The reference formulation

    The pseudocode at the head of the source file.  It writes a block with
    its high-order byte first ([00010203...]), which is also the order in
    which [main] prints the digest; a block is held here as it is written
    there. *)
Module Ref.

Abbreviation block := (list Z) (only parsing).

(** The number a written block denotes, and back. *)
Definition value (bl : block) : Z := Z_of_block (rev bl).
Definition of_value (v : Z) : block := rev (block_of_Z v).

Definition zero : block := replicate 20 0.

Definition reverse (b : block) : block := rev b.

(** All zero except the lower 8 bits, which come from [b]. *)
Definition extend8 (b : byte) : block := replicate 19 0 ++ [byte_val b].

(** All zero except the lower 64 bits, which come from [i] and are in
    little-endian byte order. *)
Definition extend64 (i : Z) : block :=
  replicate 12 0 ++ ((fun k => uint8 (Z.shiftr i (8 * Z.of_nat k))) <$> seq 0 8).

Definition rotate (bl : block) (n : Z) : block := of_value (rotl160 (value bl) n).

Definition xor (bl1 bl2 : block) : block := zip_with Z.lxor bl1 bl2.

(** The [for] loop of [XorHash0], from index [i] on. *)
Fixpoint XorHash0_loop (ret : block) (i : nat) (rgb : list byte) : block :=
  match rgb with
  | [] => ret
  | b :: rest =>
      XorHash0_loop (xor ret (rotate (extend8 b) (Z.of_nat i * 11))) (S i) rest
  end.

Definition XorHash0 (rgb : list byte) : block :=
  reverse (XorHash0_loop zero 0 rgb).

Definition XorHash (rgb : list byte) : block :=
  xor (extend64 (Z.of_nat (length rgb))) (XorHash0 rgb).

End Ref.

(** A written block as the [block_t] array stores it: low-order byte at
    index 0. *)
Definition stored (bl : list Z) : block_t := rev bl.

(** ** Definitions used in the statements and proofs *)

(** A number that fits in 160 bits. *)
Definition in160 (v : Z) : Prop := 0 <= v < 2 ^ 160.

(** The bytes of a number, low-order first. *)
Definition bytes_of_Z (n : nat) (v : Z) : list Z :=
  (fun k => uint8 (Z.shiftr v (8 * Z.of_nat k))) <$> seq 0 n.

(** The accumulator index whose byte ends up in block [k] at offset [y]. *)
Definition slot_source (k y : nat) : nat := (((8 * y + k) * 131) mod 160)%nat.

(** Block [k] of the block set, read off an accumulator given by its
    bytes. *)
Definition lane_block (f : nat -> Z) (k : nat) : list Z :=
  (fun y => f (slot_source k y)) <$> seq 0 BYTES_PER_BLOCK.

(** The running result when the combining loop ends. *)
Definition combined (hash_data : list Z) : block_t :=
  combine (scatter hash_data) !!! 0%nat.

(** The exclusive or of all the numbers of a list. *)
Definition xors (l : list Z) : Z := foldr Z.lxor 0 l.

(** The exclusive or of every byte of [l] rotated left by eleven times its
    index, indices counted from [i]: the fold of the reference, on
    numbers. *)
Fixpoint rot_fold (i : nat) (l : list Z) : Z :=
  match l with
  | [] => 0
  | x :: rest => Z.lxor (rotl160 x (Z.of_nat i * 11)) (rot_fold (S i) rest)
  end.

(** The exclusive or of the bytes of [l] whose index, counted from [i], is
    [m] modulo 160. *)
Fixpoint lane_xor (m i : nat) (l : list Z) : Z :=
  match l with
  | [] => 0
  | b :: rest =>
      Z.lxor (if decide (i mod BLOCK_UNIT_SIZE = m)%nat then b else 0)
             (lane_xor m (S i) rest)
  end.

(** [input_data] after a read of [got] bytes, as the accumulator sees it. *)
Definition padded (c : list Z) : list Z :=
  c ++ replicate (BLOCK_UNIT_SIZE - length c) 0.

(** The slot the scatter loop writes accumulator byte [i] to: block index
    and byte index, as the loop body computes them. *)
Definition scatter_dest (i : nat) : nat * nat :=
  let mod_index := ((i * 11) mod BLOCK_UNIT_SIZE)%nat in
  ((mod_index mod 8)%nat, (mod_index / 8)%nat).

(** The slot according to the formula with modulus 1280. *)
Definition scatter_dest_1280 (i : nat) : nat * nat :=
  let p := ((i * 11) mod 1280)%nat in
  ((p mod 8)%nat, (p / 8)%nat).

(** What the block set holds in a slot, if the slot exists. *)
Definition slot (blocks : list (list Z)) (d : nat * nat) : option Z :=
  blocks !! d.1 ≫= fun block => block !! d.2.

(** The block a rotation of the number held by [b] gives. *)
Definition rotl_block (b : list Z) (n : Z) : block_t :=
  block_of_Z (rotl160 (Z_of_block b) n).

(** The length block with the most significant byte of the counter at the
    highest of the eight byte indices. *)
Definition length_block_msb_at_7 (count : Z) : block_t :=
  ((fun k => uint8 (Z.shiftr count (8 * Z.of_nat k))) <$> seq 0 8) ++ replicate 12 0.

(** The line [main] prints for a digest of twenty zero bytes. *)
Definition zero_digest_line : string :=
  "0000000000000000000000000000000000000000" ++ endl.

(** The accumulator when the read loop ends. *)
Definition accumulator (rgb : list byte) : list Z :=
  (read_loop (stream_of rgb) 0 (replicate BLOCK_UNIT_SIZE 0)).2.

(** The counter when the read loop ends. *)
Definition counter (rgb : list byte) : Z :=
  (read_loop (stream_of rgb) 0 (replicate BLOCK_UNIT_SIZE 0)).1.

(** The hexadecimal text of a block, bytes in list order. *)
Definition hex_of (block : list Z) : string :=
  foldr (fun b out => hex2 b ++ out)%string EmptyString block.

(** * Bits and numbers *)

Section Bits.

Lemma testbit_above (v p i : Z) :
  0 <= v < 2 ^ p -> 0 <= p <= i -> Z.testbit v i = false.
Proof.
  intros Hv Hp. rewrite <- (Z.mod_small v (2 ^ p)) by assumption.
  apply Z.mod_pow2_bits_high. lia.
Qed.

(** Two numbers below [2 ^ p] with the same low [p] bits are equal. *)
Lemma bits_below_inj (u v p : Z) :
  0 <= p -> 0 <= u < 2 ^ p -> 0 <= v < 2 ^ p ->
  (forall i, 0 <= i < p -> Z.testbit u i = Z.testbit v i) -> u = v.
Proof.
  intros Hp Hu Hv H. apply Z.bits_inj'. intros i Hi.
  destruct (Z.lt_ge_cases i p) as [Hlt | Hge].
  - apply H. lia.
  - rewrite (testbit_above u p), (testbit_above v p) by lia. reflexivity.
Qed.

Lemma land_shiftl_low (x c s : Z) :
  0 <= s -> 0 <= c < 2 ^ s -> Z.land (Z.shiftl x s) c = 0.
Proof.
  intros Hs Hc. apply Z.bits_inj'. intros i Hi.
  rewrite Z.land_spec, Z.bits_0.
  destruct (Z.lt_ge_cases i s) as [Hlt | Hge].
  - rewrite Z.shiftl_spec_low by assumption. reflexivity.
  - rewrite (testbit_above c s) by lia. apply andb_false_r.
Qed.

(** Or-ing into the bits a left shift has cleared is an addition. *)
Lemma lor_shiftl_add (x c s : Z) :
  0 <= s -> 0 <= c < 2 ^ s -> Z.lor (Z.shiftl x s) c = x * 2 ^ s + c.
Proof.
  intros Hs Hc.
  rewrite <- Z.lxor_lor by (apply land_shiftl_low; assumption).
  rewrite <- Z.add_nocarry_lxor by (apply land_shiftl_low; assumption).
  rewrite Z.shiftl_mul_pow2 by assumption. reflexivity.
Qed.

Lemma add_shiftl_lxor (x c s : Z) :
  0 <= s -> 0 <= c < 2 ^ s -> c + x * 2 ^ s = Z.lxor c (Z.shiftl x s).
Proof.
  intros Hs Hc. rewrite Z.lxor_comm, Z.add_comm.
  rewrite <- Z.add_nocarry_lxor by (apply land_shiftl_low; assumption).
  rewrite Z.shiftl_mul_pow2 by assumption. reflexivity.
Qed.

Lemma lxor_range (u v p : Z) :
  0 <= p -> 0 <= u < 2 ^ p -> 0 <= v < 2 ^ p -> 0 <= Z.lxor u v < 2 ^ p.
Proof.
  intros Hp Hu Hv.
  assert (Hnn : 0 <= Z.lxor u v) by (apply Z.lxor_nonneg; lia).
  split; [assumption|].
  destruct (Z.eq_dec (Z.lxor u v) 0) as [-> | Hne]; [lia|].
  assert (Hp' : 0 < p).
  { destruct (Z.eq_dec p 0) as [-> | ?]; [|lia].
    replace u with 0 in Hne by lia. replace v with 0 in Hne by lia.
    contradiction. }
  apply Z.log2_lt_pow2; [lia|].
  eapply Z.le_lt_trans; [apply Z.log2_lxor; lia|].
  apply Z.max_lub_lt.
  - destruct (Z.eq_dec u 0) as [-> | ?]; [simpl; lia | apply Z.log2_lt_pow2; lia].
  - destruct (Z.eq_dec v 0) as [-> | ?]; [simpl; lia | apply Z.log2_lt_pow2; lia].
Qed.

Lemma lor_range (u v p : Z) :
  0 <= p -> 0 <= u < 2 ^ p -> 0 <= v < 2 ^ p -> 0 <= Z.lor u v < 2 ^ p.
Proof.
  intros Hp Hu Hv.
  assert (Hnn : 0 <= Z.lor u v) by (apply Z.lor_nonneg; lia).
  split; [assumption|].
  destruct (Z.eq_dec (Z.lor u v) 0) as [-> | Hne]; [lia|].
  assert (Hp' : 0 < p).
  { destruct (Z.eq_dec p 0) as [-> | ?]; [|lia].
    replace u with 0 in Hne by lia. replace v with 0 in Hne by lia.
    contradiction. }
  apply Z.log2_lt_pow2; [lia|].
  rewrite Z.log2_lor by lia.
  apply Z.max_lub_lt.
  - destruct (Z.eq_dec u 0) as [-> | ?]; [simpl; lia | apply Z.log2_lt_pow2; lia].
  - destruct (Z.eq_dec v 0) as [-> | ?]; [simpl; lia | apply Z.log2_lt_pow2; lia].
Qed.

End Bits.

(** * The rotation of a number *)

Lemma rotl160_testbit (v n j : Z) :
  in160 v -> 0 <= j ->
  Z.testbit (rotl160 v n) j =
  if j <? 160 then Z.testbit v ((j - n) mod 160) else false.
Proof.
  intros Hv Hj. unfold rotl160. cbv zeta.
  assert (Hs : 0 <= n mod 160 < 160) by (apply Z.mod_pos_bound; lia).
  rewrite Z.land_spec, Z.testbit_ones_nonneg by lia.
  destruct (Z.ltb_spec j 160) as [Hlt | Hge]; [|apply andb_false_r].
  rewrite andb_true_r, Z.lor_spec, Z.shiftr_spec, Z.shiftl_spec by lia.
  destruct (Z.lt_ge_cases j (n mod 160)) as [Hlow | Hhigh].
  - rewrite (Z.testbit_neg_r v (j - n mod 160)) by lia. rewrite orb_false_l.
    f_equal. Z.div_mod_to_equations. lia.
  - rewrite (testbit_above v 160 (j + (160 - n mod 160))) by (unfold in160 in Hv; lia).
    rewrite orb_false_r. f_equal. Z.div_mod_to_equations. lia.
Qed.

Lemma rotl160_range (v n : Z) : in160 (rotl160 v n).
Proof.
  unfold rotl160, in160. cbv zeta. rewrite Z.land_ones by lia.
  apply Z.mod_pos_bound. lia.
Qed.

Lemma in160_eq (u v : Z) :
  in160 u -> in160 v ->
  (forall i, 0 <= i < 160 -> Z.testbit u i = Z.testbit v i) -> u = v.
Proof. intros Hu Hv. apply bits_below_inj; [lia | exact Hu | exact Hv]. Qed.

Lemma in160_lxor (u v : Z) : in160 u -> in160 v -> in160 (Z.lxor u v).
Proof. unfold in160. intros. apply lxor_range; lia. Qed.

Lemma in160_0 : in160 0.
Proof. unfold in160. lia. Qed.

Lemma in160_byte (b : Z) : is_byte b -> in160 b.
Proof. unfold is_byte, in160. lia. Qed.

Create HintDb in160.
#[local] Hint Resolve rotl160_range in160_lxor in160_0 in160_byte : in160.

(** Rotation distributes over exclusive or. *)
Lemma rotl160_lxor (u v n : Z) :
  in160 u -> in160 v ->
  rotl160 (Z.lxor u v) n = Z.lxor (rotl160 u n) (rotl160 v n).
Proof.
  intros Hu Hv. apply in160_eq; auto with in160.
  intros i Hi.
  rewrite Z.lxor_spec, !rotl160_testbit by (auto with in160; lia).
  destruct (Z.ltb_spec i 160); [|lia]. apply Z.lxor_spec.
Qed.

(** Rotations compose by adding the bit counts. *)
Lemma rotl160_rotl160 (v a b : Z) :
  in160 v -> rotl160 (rotl160 v a) b = rotl160 v (a + b).
Proof.
  intros Hv. apply in160_eq; auto with in160.
  intros i Hi.
  assert (0 <= (i - b) mod 160 < 160) by (apply Z.mod_pos_bound; lia).
  rewrite !rotl160_testbit by (auto with in160; lia).
  destruct (Z.ltb_spec i 160); [|lia].
  destruct (Z.ltb_spec ((i - b) mod 160) 160); [|lia].
  apply f_equal. rewrite Zminus_mod_idemp_l. apply (f_equal (fun x => x mod 160)). lia.
Qed.

(** Rotating by a multiple of 160 bits more changes nothing. *)
Lemma rotl160_period (v n k : Z) : rotl160 v (n + k * 160) = rotl160 v n.
Proof. unfold rotl160. rewrite Z_mod_plus_full. reflexivity. Qed.

Lemma rotl160_0_l (n : Z) : rotl160 0 n = 0.
Proof.
  unfold rotl160. cbv zeta.
  rewrite Z.shiftl_0_l, Z.shiftr_0_l. reflexivity.
Qed.

Lemma rotl160_0_r (v : Z) : in160 v -> rotl160 v 0 = v.
Proof.
  intros Hv. apply in160_eq; auto with in160.
  intros i Hi. rewrite rotl160_testbit by (auto; lia).
  destruct (Z.ltb_spec i 160); [|lia].
  apply f_equal. rewrite Z.sub_0_r. apply Z.mod_small. lia.
Qed.

(** A left shift that stays inside the 160 bits is a rotation. *)
Lemma rotl160_small (v s : Z) :
  0 <= s < 160 -> 0 <= v < 2 ^ (160 - s) -> rotl160 v s = v * 2 ^ s.
Proof.
  intros Hs Hv.
  assert (Hpow : 2 ^ 160 = 2 ^ (160 - s) * 2 ^ s)
    by (rewrite <- Z.pow_add_r by lia; f_equal; lia).
  assert (0 < 2 ^ s) by (apply Z.pow_pos_nonneg; lia).
  unfold rotl160. cbv zeta. rewrite (Z.mod_small s) by lia.
  rewrite (Z.shiftr_div_pow2 v), (Z.div_small v), Z.lor_0_r by lia.
  rewrite Z.land_ones, Z.shiftl_mul_pow2 by lia.
  apply Z.mod_small. nia.
Qed.

(** * Blocks and the numbers they hold *)

Lemma uint8_byte (z : Z) : is_byte (uint8 z).
Proof. unfold is_byte, uint8. apply Z.mod_pos_bound. lia. Qed.

Lemma uint8_small (z : Z) : is_byte z -> uint8 z = z.
Proof. unfold is_byte, uint8. intros. apply Z.mod_small. lia. Qed.

Lemma byte_val_byte (b : byte) : is_byte (byte_val b).
Proof.
  unfold is_byte, byte_val. pose proof (Byte.to_N_bounded b). lia.
Qed.

Lemma is_byte_lxor (a b : Z) : is_byte a -> is_byte b -> is_byte (Z.lxor a b).
Proof. unfold is_byte. intros. apply (lxor_range a b 8); lia. Qed.

Lemma is_byte_lor (a b : Z) : is_byte a -> is_byte b -> is_byte (Z.lor a b).
Proof. unfold is_byte. intros. apply (lor_range a b 8); lia. Qed.

Lemma bytes_zip_lxor (a b : list Z) :
  Forall is_byte a -> Forall is_byte b -> Forall is_byte (zip_with Z.lxor a b).
Proof.
  intros Ha. revert b. induction Ha as [|x a Hx Ha IH]; intros b Hb; [constructor|].
  destruct Hb as [|y b Hy Hb]; [constructor|]. simpl.
  constructor; [apply is_byte_lxor; assumption | apply IH; assumption].
Qed.

Lemma Z_of_block_range (b : list Z) :
  Forall is_byte b -> 0 <= Z_of_block b < 2 ^ (8 * Z.of_nat (length b)).
Proof.
  induction 1 as [|x b Hx Hb IH]; [simpl; lia|].
  cbn [Z_of_block length]. rewrite Nat2Z.inj_succ.
  replace (8 * Z.succ (Z.of_nat (length b))) with (8 + 8 * Z.of_nat (length b)) by lia.
  rewrite Z.pow_add_r by lia. unfold is_byte in Hx. lia.
Qed.

Lemma Z_of_block_in160 (b : list Z) : wf_block b -> in160 (Z_of_block b).
Proof.
  intros [Hlen Hb]. pose proof (Z_of_block_range b Hb) as H.
  rewrite Hlen in H. exact H.
Qed.

Lemma Z_of_block_cons_lxor (x : Z) (b : list Z) :
  is_byte x -> Z_of_block (x :: b) = Z.lxor x (Z.shiftl (Z_of_block b) 8).
Proof.
  intros Hx. cbn [Z_of_block].
  rewrite <- (add_shiftl_lxor (Z_of_block b) x 8) by (unfold is_byte in Hx; lia).
  change (2 ^ 8) with 256. lia.
Qed.

(** The number held by the exclusive or of two arrays. *)
Lemma Z_of_block_zip_lxor (a b : list Z) :
  length a = length b -> Forall is_byte a -> Forall is_byte b ->
  Z_of_block (zip_with Z.lxor a b) = Z.lxor (Z_of_block a) (Z_of_block b).
Proof.
  intros Hlen Ha. revert b Hlen.
  induction Ha as [|x a Hx Ha IH]; intros [|y b] Hlen Hb; try discriminate;
    [reflexivity|].
  injection Hlen as Hlen.
  pose proof (Forall_inv Hb) as Hy. apply Forall_inv_tail in Hb.
  cbn [zip_with]. rewrite !Z_of_block_cons_lxor by auto using is_byte_lxor.
  rewrite (IH b Hlen Hb), Z.shiftl_lxor.
  rewrite !Z.lxor_assoc. f_equal.
  rewrite <- !Z.lxor_assoc. f_equal. apply Z.lxor_comm.
Qed.

Lemma bytes_of_Z_S (n : nat) (v : Z) :
  bytes_of_Z (S n) v = uint8 v :: bytes_of_Z n (Z.shiftr v 8).
Proof.
  unfold bytes_of_Z. cbn [seq fmap list_fmap]. f_equal.
  rewrite <- seq_shift, <- list_fmap_compose.
  apply list_fmap_ext. intros _ k _. cbn.
  rewrite Z.shiftr_shiftr by lia. do 2 f_equal. lia.
Qed.

Lemma bytes_of_Z_length (n : nat) (v : Z) : length (bytes_of_Z n v) = n.
Proof. unfold bytes_of_Z. rewrite length_fmap. apply length_seq. Qed.

Lemma bytes_of_Z_bytes (n : nat) (v : Z) : Forall is_byte (bytes_of_Z n v).
Proof.
  unfold bytes_of_Z. apply Forall_fmap, Forall_forall. intros. apply uint8_byte.
Qed.

Lemma bytes_of_Z_of_block (b : list Z) :
  Forall is_byte b -> bytes_of_Z (length b) (Z_of_block b) = b.
Proof.
  induction 1 as [|x b Hx Hb IH]; [reflexivity|].
  cbn [length]. rewrite bytes_of_Z_S. cbn [Z_of_block].
  unfold is_byte in Hx. f_equal.
  - unfold uint8. change (2 ^ 8) with 256.
    replace (x + 256 * Z_of_block b) with (x + Z_of_block b * 256) by lia.
    rewrite Z_mod_plus_full. apply Z.mod_small. lia.
  - etransitivity; [|exact IH]. f_equal.
    rewrite Z.shiftr_div_pow2 by lia. change (2 ^ 8) with 256.
    replace (x + 256 * Z_of_block b) with (x + Z_of_block b * 256) by lia.
    rewrite Z.div_add, (Z.div_small x) by lia. lia.
Qed.

Lemma Z_of_bytes_of_Z (n : nat) (v : Z) :
  0 <= v -> Z_of_block (bytes_of_Z n v) = v mod 2 ^ (8 * Z.of_nat n).
Proof.
  revert v. induction n as [|n IH]; intros v Hv.
  - simpl. rewrite Z.mod_1_r. reflexivity.
  - rewrite bytes_of_Z_S. cbn [Z_of_block].
    rewrite IH by (apply Z.shiftr_nonneg; assumption).
    rewrite Z.shiftr_div_pow2 by lia.
    replace (8 * Z.of_nat (S n)) with (8 + 8 * Z.of_nat n) by lia.
    rewrite Z.pow_add_r by lia. unfold uint8.
    rewrite (Z.rem_mul_r v (2 ^ 8)) by (try apply Z.pow_pos_nonneg; lia).
    reflexivity.
Qed.

Lemma block_of_Z_wf (v : Z) : wf_block (block_of_Z v).
Proof.
  split; [apply bytes_of_Z_length | apply bytes_of_Z_bytes].
Qed.

Lemma block_of_Z_of_block (b : list Z) :
  wf_block b -> block_of_Z (Z_of_block b) = b.
Proof.
  intros [Hlen Hb]. rewrite <- (bytes_of_Z_of_block b Hb) at 2.
  rewrite Hlen. reflexivity.
Qed.

Lemma Z_of_block_of_Z (v : Z) : in160 v -> Z_of_block (block_of_Z v) = v.
Proof.
  intros Hv. unfold block_of_Z. fold (bytes_of_Z BYTES_PER_BLOCK v).
  rewrite Z_of_bytes_of_Z by (unfold in160 in Hv; lia).
  apply Z.mod_small. exact Hv.
Qed.

(** Well-formed blocks are determined by the number they hold. *)
Lemma Z_of_block_inj (a b : list Z) :
  wf_block a -> wf_block b -> Z_of_block a = Z_of_block b -> a = b.
Proof.
  intros Ha Hb Heq.
  rewrite <- (block_of_Z_of_block a Ha), <- (block_of_Z_of_block b Hb), Heq.
  reflexivity.
Qed.

Lemma xor_wf (a b : list Z) : wf_block a -> wf_block b -> wf_block (xor a b).
Proof.
  intros [La Ha] [Lb Hb]. split.
  - unfold xor. rewrite length_zip_with. lia.
  - apply bytes_zip_lxor; assumption.
Qed.

Lemma Z_of_block_xor_wf (a b : list Z) :
  wf_block a -> wf_block b ->
  Z_of_block (xor a b) = Z.lxor (Z_of_block a) (Z_of_block b).
Proof.
  intros [La Ha] [Lb Hb]. apply Z_of_block_zip_lxor; [congruence | assumption..].
Qed.

(** * [rotate_block] *)

Lemma shift_cases (s : Z) :
  0 <= s <= 8 ->
  s = 0 \/ s = 1 \/ s = 2 \/ s = 3 \/ s = 4 \/ s = 5 \/ s = 6 \/ s = 7 \/ s = 8.
Proof. lia. Qed.

Ltac shift_cases s H :=
  destruct (shift_cases s H) as [-> | [-> | [-> | [-> | [-> | [-> | [-> | [-> | ->]]]]]]]].

(** One turn of the loop: the byte stored and the carry kept are the low and
    the high part of the shifted byte. *)
Lemma rotate_step (s c x : Z) :
  0 <= s <= 8 -> 0 <= c < 2 ^ s -> is_byte x ->
  let t := uint8 (Z.shiftr x (uint64 (8 - s))) in
  let x' := uint8 (Z.lor (Z.shiftl x s) c) in
  0 <= t < 2 ^ s /\ x' + 256 * t = x * 2 ^ s + c /\ x' mod 2 ^ s = c.
Proof.
  intros Hs Hc Hx. cbv zeta. rewrite lor_shiftl_add by lia.
  unfold is_byte in Hx.
  shift_cases s Hs;
    match goal with
    | |- context [uint64 ?e] =>
        let v := eval vm_compute in (uint64 e) in change (uint64 e) with v
    end;
    rewrite Z.shiftr_div_pow2 by lia; unfold uint8;
    match goal with
    | |- context [2 ^ 8] => change (2 ^ 8) with 256
    end;
    repeat match goal with
    | |- context [2 ^ ?k] =>
        let v := eval vm_compute in (2 ^ k) in change (2 ^ k) with v
    | H : context [2 ^ ?k] |- _ =>
        let v := eval vm_compute in (2 ^ k) in change (2 ^ k) with v in H
    end;
    Z.div_mod_to_equations; lia.
Qed.

Lemma rotate_loop_value (s : Z) (b : list Z) :
  0 <= s <= 8 -> Forall is_byte b ->
  forall c, 0 <= c < 2 ^ s ->
  length (rotate_loop s c b).1 = length b /\
  Forall is_byte (rotate_loop s c b).1 /\
  0 <= (rotate_loop s c b).2 < 2 ^ s /\
  Z_of_block (rotate_loop s c b).1
    + 2 ^ (8 * Z.of_nat (length b)) * (rotate_loop s c b).2
  = Z_of_block b * 2 ^ s + c.
Proof.
  intros Hs Hb. induction Hb as [|x b Hx Hb IH]; intros c Hc.
  - simpl. repeat split; try constructor; lia.
  - cbn [rotate_loop].
    destruct (rotate_step s c x Hs Hc Hx) as (Ht & Hval & _).
    specialize (IH _ Ht).
    destruct (rotate_loop s _ b) as [rest' carry'] eqn:Hloop.
    cbn [fst snd] in *. destruct IH as (Hlen & Hbytes & Hcarry & Hrest).
    repeat split; try lia.
    + simpl. congruence.
    + constructor; [apply uint8_byte | assumption].
    + cbn [Z_of_block length]. rewrite Nat2Z.inj_succ.
      replace (8 * Z.succ (Z.of_nat (length b))) with (8 + 8 * Z.of_nat (length b)) by lia.
      rewrite Z.pow_add_r by lia. change (2 ^ 8) with 256. nia.
Qed.

Lemma lor_low_add (x c s : Z) :
  0 <= s -> 0 <= x -> x mod 2 ^ s = 0 -> 0 <= c < 2 ^ s -> Z.lor x c = x + c.
Proof.
  intros Hs Hx Hmod Hc.
  assert (Hpos : 0 < 2 ^ s) by (apply Z.pow_pos_nonneg; lia).
  pose proof (Z.div_mod x (2 ^ s) ltac:(lia)) as Hdm.
  rewrite Hmod, Z.add_0_r, Z.mul_comm in Hdm.
  rewrite Hdm at 1. rewrite <- Z.shiftl_mul_pow2 by lia.
  rewrite lor_shiftl_add by lia. lia.
Qed.

Lemma rotate_block_value (b : list Z) (s : Z) :
  wf_block b -> 0 <= s <= 8 ->
  wf_block (rotate_block b s) /\
  Z_of_block (rotate_block b s) = rotl160 (Z_of_block b) s.
Proof.
  intros [Hlen Hb] Hs. unfold rotate_block.
  assert (Hc0 : 0 <= 0 < 2 ^ s) by (split; [lia | apply Z.pow_pos_nonneg; lia]).
  pose proof (rotate_loop_value s b Hs Hb 0 Hc0) as (L & B & C & V).
  destruct b as [|x rest]; [discriminate|].
  cbn [rotate_loop] in *.
  destruct (rotate_step s 0 x Hs Hc0 (Forall_inv Hb)) as (_ & _ & Hmod).
  destruct (rotate_loop s _ rest) as [rest' carry'] eqn:Hloop.
  cbn [fst snd] in *. cbn [lookup_total list_lookup_total insert list_insert].
  set (x' := uint8 (Z.lor (Z.shiftl x s) 0)) in *.
  set (v := Z_of_block (x :: rest)) in *.
  assert (Hv : in160 v) by (apply Z_of_block_in160; split; assumption).
  assert (Hx' : is_byte x') by (apply (Forall_inv B)).
  assert (Hcb : is_byte carry').
  { unfold is_byte. split; [lia|].
    apply Z.lt_le_trans with (2 ^ s); [lia|].
    change 256 with (2 ^ 8). apply Z.pow_le_mono_r; lia. }
  rewrite (lor_low_add x' carry' s) by (unfold is_byte in Hx'; lia).
  split.
  - split; [rewrite <- Hlen, <- L; reflexivity|]. constructor; [|exact (Forall_inv_tail B)].
    rewrite <- (lor_low_add x' carry' s) by (unfold is_byte in Hx'; lia).
    apply is_byte_lor; assumption.
  - pose proof (Z_of_block_range _ B) as Hrange.
    rewrite L, Hlen in Hrange. rewrite Hlen in V.
    cbn [Z_of_block] in *.
    assert (Hhigh : 0 <= Z.shiftr v (160 - s) < 2 ^ s).
    { rewrite Z.shiftr_div_pow2 by lia. split.
      - apply Z.div_pos; [unfold in160 in Hv; lia | apply Z.pow_pos_nonneg; lia].
      - apply Z.div_lt_upper_bound; [apply Z.pow_pos_nonneg; lia|].
        rewrite <- Z.pow_add_r by lia.
        replace (160 - s + s) with 160 by lia. apply Hv. }
    unfold rotl160. cbv zeta. rewrite (Z.mod_small s) by lia.
    rewrite lor_shiftl_add, Z.land_ones by lia.
    rewrite Z.shiftr_div_pow2 in * by lia.
    unfold in160 in Hv. change (8 * Z.of_nat BYTES_PER_BLOCK) with 160 in *.
    clearbody x' v. clear -Hs C V Hrange Hv Hhigh.
    shift_cases s Hs;
      repeat match goal with
      | |- context [2 ^ ?k] =>
          let v := eval vm_compute in (2 ^ k) in change (2 ^ k) with v
      | H : context [2 ^ ?k] |- _ =>
          let v := eval vm_compute in (2 ^ k) in change (2 ^ k) with v in H
      | |- context [160 - ?k] =>
          let v := eval vm_compute in (160 - k) in change (160 - k) with v
      | H : context [160 - ?k] |- _ =>
          let v := eval vm_compute in (160 - k) in change (160 - k) with v in H
      end;
      Z.div_mod_to_equations; lia.
Qed.

(** * The stages after the read loop, as list functions *)

Lemma reverse_block_rev (b : list Z) :
  length b = BYTES_PER_BLOCK -> reverse_block b = rev b.
Proof.
  intros Hlen.
  do 20 (destruct b as [|? b]; [discriminate|]).
  destruct b; [reflexivity | discriminate].
Qed.

Lemma scatter_fmap (f : nat -> Z) :
  scatter (f <$> seq 0 BLOCK_UNIT_SIZE) =
  [lane_block f 0; lane_block f 1; lane_block f 2; lane_block f 3;
   lane_block f 4; lane_block f 5; lane_block f 6; lane_block f 7].
Proof. vm_compute. reflexivity. Qed.

Lemma list_as_fmap (l : list Z) (n : nat) :
  length l = n -> l = (fun i => l !!! i) <$> seq 0 n.
Proof.
  intros Hlen. apply list_eq. intros i. rewrite list_lookup_fmap.
  destruct (decide (i < n)%nat) as [Hlt | Hge].
  - rewrite lookup_seq_lt by assumption. cbn.
    apply list_lookup_lookup_total_lt. lia.
  - rewrite lookup_seq_ge by lia. cbn. apply lookup_ge_None_2. lia.
Qed.

Lemma lookup_total_fmap_seq (f : nat -> Z) (n i : nat) :
  (i < n)%nat -> (f <$> seq 0 n) !!! i = f i.
Proof.
  intros Hi. rewrite list_lookup_total_alt, list_lookup_fmap, lookup_seq_lt by assumption.
  reflexivity.
Qed.

Lemma scatter_lanes (hash_data : list Z) :
  length hash_data = BLOCK_UNIT_SIZE ->
  scatter hash_data =
  (fun k => lane_block (fun i => hash_data !!! i) k) <$> seq 0 8.
Proof.
  intros Hlen.
  etransitivity; [|apply (scatter_fmap (fun i => hash_data !!! i))].
  apply (f_equal scatter), list_as_fmap, Hlen.
Qed.

Lemma combine_8 (B0 B1 B2 B3 B4 B5 B6 B7 : list Z) :
  combine [B0; B1; B2; B3; B4; B5; B6; B7] =
  [xor (xor (xor (xor (xor (xor (xor B0 (rotate_block B1 1)) (rotate_block B2 2))
      (rotate_block B3 3)) (rotate_block B4 4)) (rotate_block B5 5))
      (rotate_block B6 6)) (rotate_block B7 7);
   rotate_block B1 1; rotate_block B2 2; rotate_block B3 3; rotate_block B4 4;
   rotate_block B5 5; rotate_block B6 6; rotate_block B7 7].
Proof. reflexivity. Qed.

Lemma finish_eq (count : Z) (hash_data : list Z) :
  length hash_data = BLOCK_UNIT_SIZE ->
  finish count hash_data =
  xor (reverse_block (combined hash_data)) (length_block count).
Proof.
  intros Hlen. unfold finish, combined. cbv zeta.
  rewrite (scatter_lanes _ Hlen). cbn [fmap list_fmap seq].
  rewrite combine_8. reflexivity.
Qed.

Lemma length_block_eq (count : Z) :
  length_block count =
  [uint8 (Z.shiftr count 56); uint8 (Z.shiftr count 48);
   uint8 (Z.shiftr count 40); uint8 (Z.shiftr count 32);
   uint8 (Z.shiftr count 24); uint8 (Z.shiftr count 16);
   uint8 (Z.shiftr count 8); uint8 (Z.shiftr count 0);
   0; 0; 0; 0; 0; 0; 0; 0; 0; 0; 0; 0].
Proof. reflexivity. Qed.

(** * Exclusive or over a list of numbers *)

Lemma xors_app (l1 l2 : list Z) : xors (l1 ++ l2) = Z.lxor (xors l1) (xors l2).
Proof.
  induction l1 as [|x l1 IH]; [reflexivity|].
  cbn [app xors foldr] in *. fold (xors (l1 ++ l2)). fold (xors l1).
  rewrite IH. symmetry. apply Z.lxor_assoc.
Qed.

Lemma xors_perm (l1 l2 : list Z) : Permutation l1 l2 -> xors l1 = xors l2.
Proof.
  induction 1 as [|x l1 l2 _ IH|x y l|l1 l2 l3 _ IH1 _ IH2]; cbn [xors foldr] in *.
  - reflexivity.
  - fold (xors l1). fold (xors l2). congruence.
  - rewrite <- !Z.lxor_assoc. f_equal. apply Z.lxor_comm.
  - congruence.
Qed.

Lemma in160_xors (l : list Z) : Forall in160 l -> in160 (xors l).
Proof.
  induction 1 as [|x l Hx Hl IH]; cbn [xors foldr]; auto with in160.
Qed.

Lemma rotl160_xors (l : list Z) (n : Z) :
  Forall in160 l -> rotl160 (xors l) n = xors ((fun v => rotl160 v n) <$> l).
Proof.
  induction 1 as [|x l Hx Hl IH]; cbn [xors foldr fmap list_fmap].
  - apply rotl160_0_l.
  - fold (xors l). rewrite rotl160_lxor by auto using in160_xors.
    rewrite IH. reflexivity.
Qed.

(** * The reference fold over numbers *)

Lemma rot_fold_in160 (i : nat) (l : list Z) : in160 (rot_fold i l).
Proof.
  revert i. induction l as [|x l IH]; intros i; cbn [rot_fold]; auto with in160.
Qed.

Lemma rot_fold_app (i : nat) (l1 l2 : list Z) :
  rot_fold i (l1 ++ l2) = Z.lxor (rot_fold i l1) (rot_fold (i + length l1) l2).
Proof.
  revert i. induction l1 as [|x l1 IH]; intros i; cbn [app rot_fold length].
  - rewrite Nat.add_0_r. reflexivity.
  - rewrite IH, Z.lxor_assoc. do 3 f_equal. lia.
Qed.

Lemma rot_fold_period (i : nat) (l : list Z) :
  rot_fold (i + BLOCK_UNIT_SIZE) l = rot_fold i l.
Proof.
  revert i. induction l as [|x l IH]; intros i; cbn [rot_fold]; [reflexivity|].
  rewrite <- (IH (S i)). f_equal.
  rewrite <- (rotl160_period x (Z.of_nat i * 11) 11). f_equal.
  change BLOCK_UNIT_SIZE with 160%nat. lia.
Qed.

Lemma rot_fold_zeros (i n : nat) : rot_fold i (replicate n 0) = 0.
Proof.
  revert i. induction n as [|n IH]; intros i; cbn [replicate rot_fold]; [reflexivity|].
  rewrite IH, rotl160_0_l. reflexivity.
Qed.

Lemma rot_fold_zip_lxor (i : nat) (a b : list Z) :
  length a = length b -> Forall is_byte a -> Forall is_byte b ->
  rot_fold i (zip_with Z.lxor a b) = Z.lxor (rot_fold i a) (rot_fold i b).
Proof.
  intros Hlen Ha. revert i b Hlen.
  induction Ha as [|x a Hx Ha IH]; intros i b Hlen Hb.
  - destruct b; [reflexivity | discriminate].
  - destruct Hb as [|y b Hy Hb]; [discriminate|].
    cbn [zip_with rot_fold]. rewrite IH by (simpl in Hlen; auto; lia).
    rewrite rotl160_lxor by auto with in160.
    rewrite !Z.lxor_assoc. f_equal.
    rewrite <- !Z.lxor_assoc. f_equal. apply Z.lxor_comm.
Qed.

Lemma rot_fold_fmap_seq (f : nat -> Z) (i n : nat) :
  rot_fold i (f <$> seq i n) =
  xors ((fun m => rotl160 (f m) (Z.of_nat m * 11)) <$> seq i n).
Proof.
  revert i. induction n as [|n IH]; intros i; [reflexivity|].
  cbn [seq fmap list_fmap rot_fold xors foldr]. rewrite IH. reflexivity.
Qed.

(** * The combined block as a fold over the accumulator *)

Lemma bytes_lookup_total (l : list Z) (i : nat) :
  Forall is_byte l -> is_byte (l !!! i).
Proof.
  intros Hl. destruct (decide (i < length l)%nat) as [Hlt | Hge].
  - apply Forall_lookup_total_1; assumption.
  - rewrite list_lookup_total_alt, lookup_ge_None_2 by lia. cbn. unfold is_byte. lia.
Qed.

Lemma Z_of_block_fmap_seq (g : nat -> Z) (n y0 : nat) :
  (forall y, is_byte (g y)) -> (y0 + n <= 20)%nat ->
  Z_of_block (g <$> seq y0 n) * 2 ^ (8 * Z.of_nat y0) =
  xors ((fun y => rotl160 (g y) (8 * Z.of_nat y)) <$> seq y0 n).
Proof.
  intros Hg. revert y0. induction n as [|n IH]; intros y0 Hn; [reflexivity|].
  cbn [seq fmap list_fmap Z_of_block xors foldr].
  fold (xors ((fun y => rotl160 (g y) (8 * Z.of_nat y)) <$> seq (S y0) n)).
  rewrite <- IH by lia.
  pose proof (Hg y0) as Hb. unfold is_byte in Hb.
  assert (Hpow : 0 < 2 ^ (8 * Z.of_nat y0)) by (apply Z.pow_pos_nonneg; lia).
  assert (Hsucc : 2 ^ (8 * Z.of_nat (S y0)) = 2 ^ (8 * Z.of_nat y0) * 256).
  { replace (8 * Z.of_nat (S y0)) with (8 * Z.of_nat y0 + 8) by lia.
    rewrite Z.pow_add_r by lia. reflexivity. }
  rewrite rotl160_small.
  - rewrite <- (Z.shiftl_mul_pow2 _ (8 * Z.of_nat (S y0))) by lia.
    rewrite <- add_shiftl_lxor by (rewrite ?Hsucc; nia).
    rewrite Hsucc. lia.
  - lia.
  - split; [lia|]. apply Z.lt_le_trans with (2 ^ 8); [lia|].
    apply Z.pow_le_mono_r; lia.
Qed.

Lemma slot_source_rotation (k y : nat) :
  (k < 8)%nat -> (y < 20)%nat ->
  (Z.of_nat (slot_source k y) * 11) mod 160 = 8 * Z.of_nat y + Z.of_nat k.
Proof.
  intros Hk Hy.
  assert (Hall : forallb (fun k => forallb (fun y =>
            (Z.of_nat (slot_source k y) * 11) mod 160 =? 8 * Z.of_nat y + Z.of_nat k)
            (seq 0 20)) (seq 0 8) = true) by (vm_compute; reflexivity).
  rewrite forallb_forall in Hall. specialize (Hall k).
  rewrite forallb_forall in Hall. apply Z.eqb_eq, Hall; apply in_seq; lia.
Qed.

Lemma rotl160_congr (v a b : Z) : a mod 160 = b mod 160 -> rotl160 v a = rotl160 v b.
Proof. unfold rotl160. intros ->. reflexivity. Qed.

(** Block [k], rotated by [k] bits, holds the accumulator bytes it received,
    each rotated by eleven times its accumulator index. *)
Lemma lane_block_rotated (f : nat -> Z) (k : nat) :
  (forall m, is_byte (f m)) -> (k < 8)%nat ->
  wf_block (lane_block f k) /\
  rotl160 (Z_of_block (lane_block f k)) (Z.of_nat k) =
  xors ((fun m => rotl160 (f m) (Z.of_nat m * 11)) <$> (slot_source k <$> seq 0 20)).
Proof.
  intros Hf Hk. split.
  - split.
    + unfold lane_block. rewrite length_fmap, length_seq. reflexivity.
    + unfold lane_block. apply Forall_fmap, Forall_forall. intros; apply Hf.
  - pose proof (Z_of_block_fmap_seq (fun y => f (slot_source k y)) 20 0
                  (fun y => Hf _) ltac:(lia)) as Hval.
    change (2 ^ (8 * Z.of_nat 0)) with 1 in Hval. rewrite Z.mul_1_r in Hval.
    unfold lane_block. change BYTES_PER_BLOCK with 20%nat. rewrite Hval.
    rewrite rotl160_xors.
    + rewrite <- !list_fmap_compose. f_equal.
      apply list_fmap_ext. intros i y [-> Hi]%lookup_seq.
      unfold compose. change (0 + i)%nat with i.
      rewrite rotl160_rotl160 by auto with in160.
      apply rotl160_congr.
      rewrite slot_source_rotation by lia. apply Z.mod_small. lia.
    + apply Forall_fmap, Forall_forall. intros; apply rotl160_range.
Qed.

(** The sources of the slots, block after block, are the accumulator
    indices, each one once. *)
Lemma slot_source_perm :
  Permutation
    (concat [slot_source 0 <$> seq 0 20; slot_source 1 <$> seq 0 20;
             slot_source 2 <$> seq 0 20; slot_source 3 <$> seq 0 20;
             slot_source 4 <$> seq 0 20; slot_source 5 <$> seq 0 20;
             slot_source 6 <$> seq 0 20; slot_source 7 <$> seq 0 20])
    (seq 0 BLOCK_UNIT_SIZE).
Proof. apply (bool_decide_unpack _). vm_compute. exact I. Qed.

Lemma xors_concat8 (G : nat -> Z) (L0 L1 L2 L3 L4 L5 L6 L7 : list nat) :
  xors (G <$> concat [L0; L1; L2; L3; L4; L5; L6; L7]) =
  Z.lxor (Z.lxor (Z.lxor (Z.lxor (Z.lxor (Z.lxor (Z.lxor
    (xors (G <$> L0)) (xors (G <$> L1))) (xors (G <$> L2))) (xors (G <$> L3)))
    (xors (G <$> L4))) (xors (G <$> L5))) (xors (G <$> L6))) (xors (G <$> L7)).
Proof.
  cbn [concat]. rewrite app_nil_r, !fmap_app, !xors_app, !Z.lxor_assoc.
  reflexivity.
Qed.

(** The running result of the combining loop holds the exclusive or of
    every accumulator byte rotated by eleven times its index. *)
Lemma combined_value (hash_data : list Z) :
  length hash_data = BLOCK_UNIT_SIZE -> Forall is_byte hash_data ->
  wf_block (combined hash_data) /\
  Z_of_block (combined hash_data) = rot_fold 0 hash_data.
Proof.
  intros Hlen Hbytes. unfold combined.
  rewrite (scatter_lanes _ Hlen). cbn [fmap list_fmap seq]. rewrite combine_8.
  cbn [lookup_total list_lookup_total].
  set (f := fun i => hash_data !!! i).
  assert (Hf : forall m, is_byte (f m)) by (intros m; apply bytes_lookup_total, Hbytes).
  destruct (lane_block_rotated f 0 Hf ltac:(lia)) as [W0 R0].
  destruct (lane_block_rotated f 1 Hf ltac:(lia)) as [W1 R1].
  destruct (lane_block_rotated f 2 Hf ltac:(lia)) as [W2 R2].
  destruct (lane_block_rotated f 3 Hf ltac:(lia)) as [W3 R3].
  destruct (lane_block_rotated f 4 Hf ltac:(lia)) as [W4 R4].
  destruct (lane_block_rotated f 5 Hf ltac:(lia)) as [W5 R5].
  destruct (lane_block_rotated f 6 Hf ltac:(lia)) as [W6 R6].
  destruct (lane_block_rotated f 7 Hf ltac:(lia)) as [W7 R7].
  rewrite rotl160_0_r in R0 by (apply Z_of_block_in160, W0).
  destruct (rotate_block_value _ 1 W1 ltac:(lia)) as [V1 E1].
  destruct (rotate_block_value _ 2 W2 ltac:(lia)) as [V2 E2].
  destruct (rotate_block_value _ 3 W3 ltac:(lia)) as [V3 E3].
  destruct (rotate_block_value _ 4 W4 ltac:(lia)) as [V4 E4].
  destruct (rotate_block_value _ 5 W5 ltac:(lia)) as [V5 E5].
  destruct (rotate_block_value _ 6 W6 ltac:(lia)) as [V6 E6].
  destruct (rotate_block_value _ 7 W7 ltac:(lia)) as [V7 E7].
  split; [auto 10 using xor_wf|].
  rewrite !Z_of_block_xor_wf by auto 10 using xor_wf.
  rewrite E1, E2, E3, E4, E5, E6, E7.
  change 1 with (Z.of_nat 1). change 2 with (Z.of_nat 2).
  change 3 with (Z.of_nat 3). change 4 with (Z.of_nat 4).
  change 5 with (Z.of_nat 5). change 6 with (Z.of_nat 6).
  change 7 with (Z.of_nat 7).
  replace (rot_fold 0 hash_data) with (rot_fold 0 (f <$> seq 0 BLOCK_UNIT_SIZE))
    by (apply f_equal; symmetry; apply list_as_fmap, Hlen).
  rewrite rot_fold_fmap_seq.
  rewrite <- (xors_perm _ _ (fmap_Permutation _ _ _ slot_source_perm)).
  rewrite xors_concat8, R0, R1, R2, R3, R4, R5, R6, R7. reflexivity.
Qed.

(** * The read loop *)

(** A full read: the chunk is folded in and the loop goes on. *)
Lemma read_loop_full (input input' : istream) (got : list byte)
      (count : Z) (hash_data : list Z) :
  read input BLOCK_UNIT_SIZE = (got, input') ->
  length got = BLOCK_UNIT_SIZE ->
  read_loop input count hash_data =
  read_loop input' (uint64 (count + Z.of_nat (length got)))
            (zip_with Z.lxor hash_data (byte_val <$> got)).
Proof.
  intros Hread Hlen. rewrite read_loop_equation_1.
  generalize (Logic.inspect (read input BLOCK_UNIT_SIZE)).
  intros [[got0 input0] Hread0].
  assert (Heq : (got0, input0) = (got, input')) by congruence.
  injection Heq as -> ->. cbn [read_loop_unfold_clause_1].
  generalize (Logic.inspect (Nat.eqb (length got) BLOCK_UNIT_SIZE)).
  intros [[] Hfull]; cbn [read_loop_unfold_clause_1_clause_1]; [reflexivity|].
  apply Nat.eqb_neq in Hfull. contradiction.
Qed.

(** A short read: the chunk is folded in, padded with zeros, and the loop
    ends. *)
Lemma read_loop_short (input input' : istream) (got : list byte)
      (count : Z) (hash_data : list Z) :
  read input BLOCK_UNIT_SIZE = (got, input') ->
  length got <> BLOCK_UNIT_SIZE ->
  read_loop input count hash_data =
  (uint64 (count + Z.of_nat (length got)),
   zip_with Z.lxor hash_data
     ((byte_val <$> got) ++ replicate (BLOCK_UNIT_SIZE - length got) 0)).
Proof.
  intros Hread Hlen. rewrite read_loop_equation_1.
  generalize (Logic.inspect (read input BLOCK_UNIT_SIZE)).
  intros [[got0 input0] Hread0].
  assert (Heq : (got0, input0) = (got, input')) by congruence.
  injection Heq as -> ->. cbn [read_loop_unfold_clause_1].
  generalize (Logic.inspect (Nat.eqb (length got) BLOCK_UNIT_SIZE)).
  intros [[] Hfull]; cbn [read_loop_unfold_clause_1_clause_1]; [|reflexivity].
  apply Nat.eqb_eq in Hfull. contradiction.
Qed.

Lemma lane_xor_app (m i : nat) (l1 l2 : list Z) :
  lane_xor m i (l1 ++ l2) = Z.lxor (lane_xor m i l1) (lane_xor m (i + length l1) l2).
Proof.
  revert i. induction l1 as [|x l1 IH]; intros i; cbn [app lane_xor length].
  - rewrite Nat.add_0_r. reflexivity.
  - rewrite IH, Z.lxor_assoc. do 3 f_equal. lia.
Qed.

Lemma lane_xor_period (m i : nat) (l : list Z) :
  lane_xor m (i + BLOCK_UNIT_SIZE) l = lane_xor m i l.
Proof.
  revert i. induction l as [|x l IH]; intros i; cbn [lane_xor]; [reflexivity|].
  replace ((i + BLOCK_UNIT_SIZE) mod BLOCK_UNIT_SIZE)%nat with (i mod BLOCK_UNIT_SIZE)%nat.
  - rewrite <- (IH (S i)). reflexivity.
  - change BLOCK_UNIT_SIZE with 160%nat.
    rewrite <- (Nat.Div0.mod_add i 1 160). apply (f_equal (fun n => n mod 160)%nat). lia.
Qed.

Lemma lane_xor_chunk (m : nat) (c : list Z) (i : nat) :
  (i + length c <= BLOCK_UNIT_SIZE)%nat ->
  lane_xor m i c =
  if decide (i <= m < i + length c)%nat then c !!! (m - i)%nat else 0.
Proof.
  revert i. induction c as [|b c IH]; intros i Hlen; cbn [lane_xor length] in *.
  - destruct (decide _); [lia | reflexivity].
  - rewrite IH by lia. rewrite (Nat.mod_small i) by lia.
    destruct (decide (i = m)) as [-> | Hne].
    + rewrite decide_False, decide_True by lia.
      rewrite Nat.sub_diag, Z.lxor_0_r. reflexivity.
    + rewrite Z.lxor_0_l.
      destruct (decide (S i <= m < S i + length c)%nat) as [Hin | Hout].
      * rewrite decide_True by lia.
        replace (m - i)%nat with (S (m - S i)) by lia. reflexivity.
      * rewrite decide_False by lia. reflexivity.
Qed.

Lemma padded_length (c : list Z) :
  (length c <= BLOCK_UNIT_SIZE)%nat -> length (padded c) = BLOCK_UNIT_SIZE.
Proof. intros H. unfold padded. rewrite length_app, length_replicate. lia. Qed.

Lemma padded_bytes (c : list Z) : Forall is_byte c -> Forall is_byte (padded c).
Proof.
  intros H. unfold padded. apply Forall_app. split; [assumption|].
  apply Forall_replicate. unfold is_byte. lia.
Qed.

Lemma padded_full (c : list Z) : length c = BLOCK_UNIT_SIZE -> padded c = c.
Proof.
  intros H. unfold padded. rewrite H, Nat.sub_diag. apply app_nil_r.
Qed.

Lemma padded_lookup (c : list Z) (m : nat) :
  (length c <= BLOCK_UNIT_SIZE)%nat -> (m < BLOCK_UNIT_SIZE)%nat ->
  padded c !!! m = lane_xor m 0 c.
Proof.
  intros Hlen Hm. rewrite lane_xor_chunk by lia. unfold padded.
  destruct (decide (0 <= m < 0 + length c)%nat) as [Hin | Hout].
  - rewrite lookup_total_app_l by lia. f_equal. lia.
  - rewrite lookup_total_app_r by lia. apply lookup_total_replicate_2. lia.
Qed.

Lemma padded_rot_fold (c : list Z) : rot_fold 0 (padded c) = rot_fold 0 c.
Proof.
  unfold padded. rewrite rot_fold_app, rot_fold_zeros. apply Z.lxor_0_r.
Qed.

(** Folding one chunk into the accumulator. *)
Lemma fold_chunk (hash_data c : list Z) :
  length hash_data = BLOCK_UNIT_SIZE -> Forall is_byte hash_data ->
  (length c <= BLOCK_UNIT_SIZE)%nat -> Forall is_byte c ->
  let hash_data' := zip_with Z.lxor hash_data (padded c) in
  length hash_data' = BLOCK_UNIT_SIZE /\
  Forall is_byte hash_data' /\
  rot_fold 0 hash_data' = Z.lxor (rot_fold 0 hash_data) (rot_fold 0 c) /\
  forall m, (m < BLOCK_UNIT_SIZE)%nat ->
            hash_data' !!! m = Z.lxor (hash_data !!! m) (lane_xor m 0 c).
Proof.
  intros Hlen Hb Hc Hcb. cbv zeta.
  pose proof (padded_length c Hc) as Hpl.
  pose proof (padded_bytes c Hcb) as Hpb.
  repeat split.
  - rewrite length_zip_with. lia.
  - apply bytes_zip_lxor; assumption.
  - rewrite rot_fold_zip_lxor, padded_rot_fold by (assumption || congruence).
    reflexivity.
  - intros m Hm. rewrite (@lookup_total_zip_with Z Z Z Z.lxor _ _ _) by lia.
    rewrite padded_lookup by assumption. reflexivity.
Qed.

Lemma read_stream_of (rgb : list byte) (n : nat) :
  read (stream_of rgb) n =
  (take n rgb, if decide (n <= length rgb)%nat then stream_of (drop n rgb)
               else {| good := false; pending := [] |}).
Proof.
  unfold read, stream_of. cbn [good pending]. f_equal.
  destruct (decide (n <= length rgb)%nat) as [Hle | Hgt].
  - f_equal. apply Nat.eqb_eq. rewrite length_take. lia.
  - f_equal.
    + apply Nat.eqb_neq. rewrite length_take. lia.
    + apply drop_ge. lia.
Qed.

(** What the read loop leaves behind on a stream that delivers [rgb]. *)
Lemma read_loop_stream (rgb : list byte) :
  forall (count : Z) (hash_data : list Z),
  length hash_data = BLOCK_UNIT_SIZE -> Forall is_byte hash_data ->
  (read_loop (stream_of rgb) count hash_data).1
    = uint64 (count + Z.of_nat (length rgb)) /\
  length (read_loop (stream_of rgb) count hash_data).2 = BLOCK_UNIT_SIZE /\
  Forall is_byte (read_loop (stream_of rgb) count hash_data).2 /\
  rot_fold 0 (read_loop (stream_of rgb) count hash_data).2
    = Z.lxor (rot_fold 0 hash_data) (rot_fold 0 (byte_val <$> rgb)) /\
  forall m, (m < BLOCK_UNIT_SIZE)%nat ->
    (read_loop (stream_of rgb) count hash_data).2 !!! m
    = Z.lxor (hash_data !!! m) (lane_xor m 0 (byte_val <$> rgb)).
Proof.
  remember (length rgb) as n eqn:Hn. revert rgb Hn.
  induction n as [n IH] using lt_wf_ind. intros rgb Hn count hash_data Hlen Hb.
  assert (Hgb : forall l : list byte, Forall is_byte (byte_val <$> l)).
  { intros l. apply Forall_fmap, Forall_forall. intros; apply byte_val_byte. }
  pose proof (read_stream_of rgb BLOCK_UNIT_SIZE) as Hread.
  destruct (decide (BLOCK_UNIT_SIZE <= length rgb)%nat) as [Hfull | Hshort].
  - assert (Htl : length (take BLOCK_UNIT_SIZE rgb) = BLOCK_UNIT_SIZE)
      by (rewrite length_take; lia).
    rewrite (read_loop_full _ _ _ _ _ Hread Htl).
    set (chunk := byte_val <$> take BLOCK_UNIT_SIZE rgb).
    assert (Hcl : length chunk = BLOCK_UNIT_SIZE)
      by (unfold chunk; rewrite length_fmap; exact Htl).
    destruct (fold_chunk hash_data chunk Hlen Hb ltac:(lia) (Hgb _))
      as (Hl' & Hb' & Hr' & Hm').
    rewrite (padded_full chunk Hcl) in Hl', Hb', Hr', Hm'.
    assert (Hdl : length (drop BLOCK_UNIT_SIZE rgb) = (n - BLOCK_UNIT_SIZE)%nat)
      by (rewrite length_drop; lia).
    assert (Hlt : (n - BLOCK_UNIT_SIZE < n)%nat)
      by (change BLOCK_UNIT_SIZE with 160%nat in *; lia).
    destruct (IH _ Hlt (drop BLOCK_UNIT_SIZE rgb) (eq_sym Hdl)
                (uint64 (count + Z.of_nat (length (take BLOCK_UNIT_SIZE rgb))))
                _ Hl' Hb') as (Ic & Il & Ib & Ir & Im).
    assert (Hsplit : byte_val <$> rgb
                     = chunk ++ (byte_val <$> drop BLOCK_UNIT_SIZE rgb)).
    { unfold chunk. rewrite <- fmap_app, take_drop. reflexivity. }
    repeat split; try assumption.
    + rewrite Ic, Htl. unfold uint64.
      rewrite Zplus_mod_idemp_l. apply (f_equal (fun z => z mod 2 ^ 64)).
      change BLOCK_UNIT_SIZE with 160%nat in *. lia.
    + rewrite Ir, Hr', Hsplit, rot_fold_app, Hcl.
      rewrite (rot_fold_period 0). apply Z.lxor_assoc.
    + intros m Hm. rewrite (Im m Hm), (Hm' m Hm), Hsplit, lane_xor_app, Hcl.
      rewrite (lane_xor_period m 0). apply Z.lxor_assoc.
  - assert (Htk : take BLOCK_UNIT_SIZE rgb = rgb) by (apply take_ge; lia).
    rewrite Htk in Hread.
    rewrite (read_loop_short _ _ _ _ _ Hread ltac:(lia)). cbn [fst snd].
    destruct (fold_chunk hash_data (byte_val <$> rgb) Hlen Hb
                ltac:(rewrite length_fmap; lia) (Hgb _)) as (Hl' & Hb' & Hr' & Hm').
    unfold padded in Hl', Hb', Hr', Hm'. rewrite length_fmap in Hl', Hb', Hr', Hm'.
    subst n. repeat split; assumption.
Qed.

(** * The digest in closed form *)

Lemma zeros_bytes (n : nat) : Forall is_byte (replicate n 0).
Proof. apply Forall_replicate. unfold is_byte. lia. Qed.

(** The digest of a stream that delivers [rgb]: the block holding the
    reference fold, reversed, with the length block folded in. *)
Lemma quick_xor_hash_closed (rgb : list byte) :
  quick_xor_hash (stream_of rgb) =
  xor (rev (block_of_Z (rot_fold 0 (byte_val <$> rgb))))
      (length_block (uint64 (Z.of_nat (length rgb)))).
Proof.
  unfold quick_xor_hash.
  destruct (read_loop_stream rgb 0 (replicate BLOCK_UNIT_SIZE 0)
              (length_replicate _ _) (zeros_bytes _)) as (Hc & Hl & Hb & Hr & _).
  destruct (read_loop _ _ _) as [count hash_data]. cbn [fst snd] in *.
  rewrite rot_fold_zeros, Z.lxor_0_l in Hr.
  destruct (combined_value hash_data Hl Hb) as [Hwf Hval].
  rewrite finish_eq by assumption.
  rewrite reverse_block_rev by apply Hwf.
  rewrite Hc, Z.add_0_l, <- Hr, <- Hval, block_of_Z_of_block by assumption.
  reflexivity.
Qed.

Lemma zip_with_lxor_comm (a b : list Z) : zip_with Z.lxor a b = zip_with Z.lxor b a.
Proof.
  revert b. induction a as [|x a IH]; intros [|y b]; cbn [zip_with]; try reflexivity.
  rewrite IH, Z.lxor_comm. reflexivity.
Qed.

Lemma rev_zip_with_lxor (a b : list Z) :
  length a = length b ->
  rev (zip_with Z.lxor a b) = zip_with Z.lxor (rev a) (rev b).
Proof.
  revert b. induction a as [|x a IH]; intros [|y b] Hlen; try discriminate; [reflexivity|].
  cbn [zip_with rev]. injection Hlen as Hlen.
  rewrite zip_with_app by (rewrite !length_rev; assumption).
  rewrite IH by assumption. reflexivity.
Qed.

Lemma rev_wf (b : list Z) : wf_block b -> wf_block (rev b).
Proof.
  intros [Hlen Hb]. split; [rewrite length_rev; assumption|].
  apply List.Forall_rev, Hb.
Qed.

Lemma uint8_shiftr_uint64 (z s : Z) :
  0 <= s <= 56 -> uint8 (Z.shiftr (uint64 z) s) = uint8 (Z.shiftr z s).
Proof.
  intros Hs. unfold uint8, uint64. apply Z.bits_inj'. intros i Hi.
  destruct (Z.lt_ge_cases i 8) as [Hlt | Hge].
  - rewrite !Z.mod_pow2_bits_low, !Z.shiftr_spec by lia.
    apply Z.mod_pow2_bits_low. lia.
  - rewrite !Z.mod_pow2_bits_high by lia. reflexivity.
Qed.

(** Only the low 64 bits of the count reach the length block. *)
Lemma length_block_uint64 (count : Z) :
  length_block (uint64 count) = length_block count.
Proof.
  rewrite !length_block_eq.
  rewrite !uint8_shiftr_uint64 by lia. reflexivity.
Qed.

Lemma length_block_wf (count : Z) : wf_block (length_block count).
Proof.
  rewrite length_block_eq. split; [reflexivity|].
  repeat (constructor; [first [apply uint8_byte | unfold is_byte; lia]|]).
  constructor.
Qed.

(** * The reference formulation, in numbers *)

Lemma Ref_value_xor (a b : list Z) :
  wf_block a -> wf_block b ->
  wf_block (Ref.xor a b) /\
  Ref.value (Ref.xor a b) = Z.lxor (Ref.value a) (Ref.value b).
Proof.
  intros Ha Hb. split; [apply (xor_wf a b); assumption|].
  unfold Ref.value, Ref.xor.
  rewrite rev_zip_with_lxor by (destruct Ha, Hb; congruence).
  apply (Z_of_block_xor_wf (rev a) (rev b)); apply rev_wf; assumption.
Qed.

Lemma Ref_value_rotate (bl : list Z) (n : Z) :
  wf_block (Ref.rotate bl n) /\
  Ref.value (Ref.rotate bl n) = rotl160 (Ref.value bl) n.
Proof.
  unfold Ref.rotate, Ref.of_value. split.
  - apply rev_wf, block_of_Z_wf.
  - unfold Ref.value at 1. rewrite rev_involutive.
    apply Z_of_block_of_Z, rotl160_range.
Qed.

Lemma Ref_value_extend8 (b : byte) :
  wf_block (Ref.extend8 b) /\ Ref.value (Ref.extend8 b) = byte_val b.
Proof.
  split.
  - split; [reflexivity|]. unfold Ref.extend8.
    apply Forall_app. split; [apply zeros_bytes|].
    constructor; [apply byte_val_byte | constructor].
  - unfold Ref.value, Ref.extend8. cbn. lia.
Qed.

Lemma Ref_zero_wf : wf_block Ref.zero /\ Ref.value Ref.zero = 0.
Proof. split; [split; [reflexivity | apply zeros_bytes] | reflexivity]. Qed.

(** The loop of [XorHash0] accumulates the reference fold. *)
Lemma Ref_loop_value (rgb : list byte) :
  forall (ret : list Z) (i : nat),
  wf_block ret ->
  wf_block (Ref.XorHash0_loop ret i rgb) /\
  Ref.value (Ref.XorHash0_loop ret i rgb)
  = Z.lxor (Ref.value ret) (rot_fold i (byte_val <$> rgb)).
Proof.
  induction rgb as [|b rgb IH]; intros ret i Hret; cbn [Ref.XorHash0_loop].
  - split; [assumption|]. cbn. rewrite Z.lxor_0_r. reflexivity.
  - destruct (Ref_value_extend8 b) as [We Ve].
    destruct (Ref_value_rotate (Ref.extend8 b) (Z.of_nat i * 11)) as [Wr Vr].
    destruct (Ref_value_xor ret _ Hret Wr) as [Wx Vx].
    destruct (IH _ (S i) Wx) as [Wl Vl].
    split; [assumption|].
    rewrite Vl, Vx, Vr, Ve. cbn [fmap list_fmap rot_fold]. apply Z.lxor_assoc.
Qed.

(** [XorHash0] is the block that holds the reference fold, reversed. *)
Lemma Ref_XorHash0_closed (rgb : list byte) :
  Ref.XorHash0 rgb = block_of_Z (rot_fold 0 (byte_val <$> rgb)).
Proof.
  destruct Ref_zero_wf as [Wz Vz].
  destruct (Ref_loop_value rgb Ref.zero 0 Wz) as [Wl Vl].
  rewrite Vz, Z.lxor_0_l in Vl. unfold Ref.XorHash0, Ref.reverse.
  rewrite <- Vl. unfold Ref.value.
  symmetry. apply block_of_Z_of_block, rev_wf, Wl.
Qed.

Lemma Ref_extend64_stored (i : Z) : stored (Ref.extend64 i) = length_block i.
Proof. rewrite length_block_eq. reflexivity. Qed.

(** The digest agrees with the reference. *)
Lemma quick_xor_hash_ref (rgb : list byte) :
  quick_xor_hash (stream_of rgb) = stored (Ref.XorHash rgb).
Proof.
  rewrite quick_xor_hash_closed. unfold Ref.XorHash, Ref.xor, stored.
  rewrite Ref_XorHash0_closed.
  rewrite rev_zip_with_lxor
    by (etransitivity; [|symmetry; apply block_of_Z_wf]; reflexivity).
  fold (stored (Ref.extend64 (Z.of_nat (length rgb)))).
  rewrite Ref_extend64_stored, length_block_uint64.
  unfold xor. apply zip_with_lxor_comm.
Qed.

(** * Bit Scatter *)

Lemma scatter_uses_dest (hash_data : list Z) :
  scatter hash_data =
  foldl (fun blocks i =>
           <[(scatter_dest i).1 :=
               <[(scatter_dest i).2 := hash_data !!! i]>
                 (blocks !!! (scatter_dest i).1)]> blocks)
        (replicate 8 (replicate BYTES_PER_BLOCK 0)) (seq 0 BLOCK_UNIT_SIZE).
Proof. reflexivity. Qed.

Lemma slot_source_dest (i : nat) :
  (i < BLOCK_UNIT_SIZE)%nat ->
  ((scatter_dest i).1 < 8)%nat /\ ((scatter_dest i).2 < 20)%nat /\
  slot_source (scatter_dest i).1 (scatter_dest i).2 = i.
Proof.
  intros Hi.
  assert (Hall : forallb (fun i =>
            Nat.ltb (scatter_dest i).1 8 && Nat.ltb (scatter_dest i).2 20 &&
            Nat.eqb (slot_source (scatter_dest i).1 (scatter_dest i).2) i)
            (seq 0 BLOCK_UNIT_SIZE) = true) by (vm_compute; reflexivity).
  rewrite forallb_forall in Hall.
  specialize (Hall i ltac:(apply in_seq; lia)).
  apply andb_prop in Hall as [Hall H3]. apply andb_prop in Hall as [H1 H2].
  apply Nat.ltb_lt in H1, H2. apply Nat.eqb_eq in H3. auto.
Qed.

Lemma scatter_slot (hash_data : list Z) (i : nat) :
  length hash_data = BLOCK_UNIT_SIZE -> (i < BLOCK_UNIT_SIZE)%nat ->
  slot (scatter hash_data) (scatter_dest i) = Some (hash_data !!! i).
Proof.
  intros Hlen Hi. destruct (slot_source_dest i Hi) as (Hk & Hy & Hsrc).
  unfold slot. rewrite (scatter_lanes _ Hlen).
  rewrite list_lookup_fmap, lookup_seq_lt by assumption.
  cbn [fmap option_fmap option_map mbind option_bind Nat.add].
  unfold lane_block. rewrite list_lookup_fmap, lookup_seq_lt by assumption.
  cbn [fmap option_fmap option_map Nat.add].
  rewrite Hsrc. reflexivity.
Qed.

(** C2, as stated, fails: with modulus 1280, accumulator byte 15 would go to
    byte index 20 of block 5, which no block has; the byte is at byte
    index 0 of that block. *)
Lemma C2_mod_1280_counterexample :
  let hash_data := <[15%nat := 1]> (replicate BLOCK_UNIT_SIZE 0) in
  scatter_dest_1280 15 = (5%nat, 20%nat) /\
  slot (scatter hash_data) (scatter_dest_1280 15) = None /\
  slot (scatter hash_data) (5%nat, 0%nat) = Some (hash_data !!! 15%nat) /\
  slot (scatter hash_data) (scatter_dest_1280 15) <> Some (hash_data !!! 15%nat).
Proof. vm_compute. repeat split; discriminate. Qed.

(** C2, amended: walking the completed 160-byte accumulator in order, the
    scatter loop copies accumulator byte [i] verbatim to position
    [p = (i * 11) mod 160], that is into block [p mod 8] at byte index
    [p / 8]. *)
Theorem C2_scatter_destination (hash_data : list Z) (i : nat) :
  length hash_data = BLOCK_UNIT_SIZE -> (i < BLOCK_UNIT_SIZE)%nat ->
  scatter_dest i = ((i * 11 mod 160 mod 8)%nat, (i * 11 mod 160 / 8)%nat) /\
  slot (scatter hash_data) (scatter_dest i) = Some (hash_data !!! i).
Proof.
  intros Hlen Hi. split; [reflexivity | apply scatter_slot; assumption].
Qed.

Lemma C2_scatter_destination_witness :
  let hash_data := Z.of_nat <$> seq 0 BLOCK_UNIT_SIZE in
  length hash_data = BLOCK_UNIT_SIZE /\ (15 < BLOCK_UNIT_SIZE)%nat /\
  slot (scatter hash_data) (scatter_dest 15) = Some (hash_data !!! 15%nat).
Proof.
  cbv zeta. split; [reflexivity|]. split; [vm_compute; lia|].
  apply (C2_scatter_destination (Z.of_nat <$> seq 0 BLOCK_UNIT_SIZE) 15).
  - reflexivity.
  - vm_compute. lia.
Defined.

Lemma lane_block_fmap (f : nat -> Z) (k : nat) :
  lane_block f k = f <$> (slot_source k <$> seq 0 20).
Proof. unfold lane_block. rewrite <- list_fmap_compose. reflexivity. Qed.

Lemma lane_block_length (f : nat -> Z) (k : nat) :
  length (lane_block f k) = BYTES_PER_BLOCK.
Proof. unfold lane_block. rewrite length_fmap. apply length_seq. Qed.

(** The block set, block after block, holds the bytes of the accumulator,
    each one once. *)
Lemma scatter_concat_perm (hash_data : list Z) :
  length hash_data = BLOCK_UNIT_SIZE ->
  Permutation (concat (scatter hash_data)) hash_data.
Proof.
  intros Hlen. rewrite (scatter_lanes _ Hlen). cbn [fmap list_fmap seq].
  rewrite !lane_block_fmap. cbn [concat]. rewrite app_nil_r, <- !fmap_app.
  etransitivity; [apply fmap_Permutation, slot_source_perm|].
  pose proof (list_as_fmap hash_data _ Hlen) as E. rewrite <- E. reflexivity.
Qed.

Lemma scatter_shape (hash_data : list Z) :
  length hash_data = BLOCK_UNIT_SIZE ->
  length (scatter hash_data) = 8%nat /\
  Forall (fun block => length block = BYTES_PER_BLOCK) (scatter hash_data).
Proof.
  intros Hlen. rewrite (scatter_lanes _ Hlen). split.
  - rewrite length_fmap. apply length_seq.
  - apply Forall_fmap, Forall_forall. intros k _. apply lane_block_length.
Qed.

(** C8: the destinations the scatter loop computes for the 160 accumulator
    indices are the 8 x 20 slots, each exactly once, whatever the data; and
    for every accumulator the loop fills 8 blocks of 20 bytes in which the
    slot of index [i] holds accumulator byte [i], so that the block set is
    a rearrangement of the accumulator that drops and repeats nothing. *)
Theorem C8_scatter_bijection (hash_data : list Z) :
  length hash_data = BLOCK_UNIT_SIZE ->
  NoDup (scatter_dest <$> seq 0 BLOCK_UNIT_SIZE) /\
  Permutation (scatter_dest <$> seq 0 BLOCK_UNIT_SIZE)
              (list_prod (seq 0 8) (seq 0 BYTES_PER_BLOCK)) /\
  length (scatter hash_data) = 8%nat /\
  Forall (fun block => length block = BYTES_PER_BLOCK) (scatter hash_data) /\
  (forall i, (i < BLOCK_UNIT_SIZE)%nat ->
             slot (scatter hash_data) (scatter_dest i) = Some (hash_data !!! i)) /\
  Permutation (concat (scatter hash_data)) hash_data.
Proof.
  intros Hlen.
  split; [apply (bool_decide_unpack _); vm_compute; exact I|].
  split; [apply (bool_decide_unpack _); vm_compute; exact I|].
  destruct (scatter_shape _ Hlen) as [H8 H20].
  split; [exact H8|]. split; [exact H20|].
  split; [intros i Hi; apply scatter_slot; assumption|].
  apply scatter_concat_perm, Hlen.
Qed.

Lemma C8_scatter_bijection_witness :
  let hash_data := Z.of_nat <$> seq 0 BLOCK_UNIT_SIZE in
  length hash_data = BLOCK_UNIT_SIZE /\
  scatter hash_data !!! 5%nat
  = [15; 103; 31; 119; 47; 135; 63; 151; 79; 7; 95; 23; 111; 39; 127; 55; 143;
     71; 159; 87] /\
  slot (scatter hash_data) (scatter_dest 15) = Some 15 /\
  Permutation (concat (scatter hash_data)) hash_data.
Proof.
  cbv zeta.
  assert (Hlen : length (Z.of_nat <$> seq 0 BLOCK_UNIT_SIZE) = BLOCK_UNIT_SIZE)
    by reflexivity.
  destruct (C8_scatter_bijection _ Hlen) as (_ & _ & _ & _ & Hslot & Hperm).
  split; [exact Hlen|]. split; [vm_compute; reflexivity|].
  split; [|exact Hperm].
  rewrite (Hslot 15%nat) by (vm_compute; lia). reflexivity.
Defined.

(** * Rotation of a block *)

Lemma rotate_block_rotl (b : list Z) (n : Z) :
  wf_block b -> 0 <= n <= 8 -> rotate_block b n = rotl_block b n.
Proof.
  intros Hb Hn. destruct (rotate_block_value b n Hb Hn) as [Hwf Hval].
  unfold rotl_block. rewrite <- Hval. symmetry. apply block_of_Z_of_block, Hwf.
Qed.

(** With a shift of 9 every right shift in the loop has the count
    [2 ^ 64 - 1], and the byte stored is the low byte of a multiple of 512. *)
Lemma rotate_block_one_9 :
  rotate_block (1 :: replicate 19 0) 9 = replicate 20 0.
Proof.
  assert (Hcount : uint64 (8 - 9) = 2 ^ 64 - 1) by reflexivity.
  assert (H1 : Z.shiftr 1 (uint64 (8 - 9)) = 0).
  { rewrite Hcount. apply Z.shiftr_eq_0; [lia | reflexivity]. }
  assert (H0 : Z.shiftr 0 (uint64 (8 - 9)) = 0) by apply Z.shiftr_0_l.
  unfold rotate_block. cbn [replicate rotate_loop].
  rewrite H1, !H0. reflexivity.
Qed.

(** C4, as stated, fails for shifts above 8: the block holding the number 1,
    rotated by 9 bits, should hold 512 (byte 1 equal to 2);
    [rotate_block] leaves it all zero. *)
Lemma C4_rotate_9_counterexample :
  let b := 1 :: replicate 19 0 in
  wf_block b /\ 0 <= 9 < 160 /\
  rotl_block b 9 = 0 :: 2 :: replicate 18 0 /\
  rotate_block b 9 = replicate 20 0 /\
  rotate_block b 9 <> rotl_block b 9.
Proof.
  cbv zeta. rewrite rotate_block_one_9.
  split; [split; [reflexivity | repeat constructor; unfold is_byte; lia]|].
  split; [lia|].
  assert (Hrot : rotl_block (1 :: replicate 19 0) 9 = 0 :: 2 :: replicate 18 0)
    by (vm_compute; reflexivity).
  rewrite Hrot. repeat split. discriminate.
Qed.

(** C4, amended: for every 20-byte block [b] and every [n] with
    [0 <= n <= 8], [rotate_block] returns [b] rotated left by [n] bits
    across the whole 160-bit span, and the result is again twenty bytes. *)
Theorem C4_rotate_block_upto_8 (b : list Z) (n : Z) :
  wf_block b -> 0 <= n <= 8 ->
  wf_block (rotate_block b n) /\
  Z_of_block (rotate_block b n) = rotl160 (Z_of_block b) n /\
  rotate_block b n = rotl_block b n.
Proof.
  intros Hb Hn. destruct (rotate_block_value b n Hb Hn) as [Hwf Hval].
  repeat split; try assumption; try apply Hwf.
  apply rotate_block_rotl; assumption.
Qed.

Lemma C4_rotate_block_upto_8_witness :
  let b := 129 :: replicate 18 0 ++ [128] in
  wf_block b /\ 0 <= 1 <= 8 /\
  rotate_block b 1 = 3 :: 1 :: replicate 18 0 /\
  rotate_block b 1 = rotl_block b 1.
Proof.
  cbv zeta.
  assert (Hwf : wf_block (129 :: replicate 18 0 ++ [128]))
    by (split; [reflexivity | repeat constructor; unfold is_byte; lia]).
  split; [exact Hwf|]. split; [lia|]. split; [reflexivity|].
  apply (C4_rotate_block_upto_8 (129 :: replicate 18 0 ++ [128]) 1 Hwf). lia.
Defined.

(** * Rotate-and-Combine *)

Lemma Z_of_rotl_block (b : list Z) (n : Z) :
  wf_block (rotl_block b n) /\
  Z_of_block (rotl_block b n) = rotl160 (Z_of_block b) n.
Proof.
  unfold rotl_block. split; [apply block_of_Z_wf|].
  apply Z_of_block_of_Z, rotl160_range.
Qed.

Lemma rotl_block_wf (b : list Z) (n : Z) : wf_block (rotl_block b n).
Proof. apply Z_of_rotl_block. Qed.

Lemma Z_of_rotl_block_eq (b : list Z) (n : Z) :
  Z_of_block (rotl_block b n) = rotl160 (Z_of_block b) n.
Proof. apply Z_of_rotl_block. Qed.

(** C7: the running result starts as block 0, unrotated; block [k], for
    [k] from 1 to 7, is rotated left by [k] bits over its 160 bits and
    exclusive-ored in, byte by byte; as 160-bit numbers, the result is the
    exclusive or of block 0 and the seven rotated numbers; the byte order
    of the result is then reversed, byte [i] taking the place of byte
    [19 - i]. *)
Theorem C7_rotate_and_combine (blocks : list (list Z)) :
  length blocks = 8%nat -> Forall wf_block blocks ->
  let running :=
    foldl (fun acc k =>
             zip_with Z.lxor acc (rotl_block (blocks !!! k) (Z.of_nat k)))
          (blocks !!! 0%nat) (seq 1 7) in
  combine blocks !!! 0%nat = running /\
  Z_of_block (combine blocks !!! 0%nat)
  = foldl (fun v k => Z.lxor v (rotl160 (Z_of_block (blocks !!! k)) (Z.of_nat k)))
          (Z_of_block (blocks !!! 0%nat)) (seq 1 7) /\
  reverse_block (combine blocks !!! 0%nat) = rev running /\
  forall i, (i < 20)%nat ->
            reverse_block (combine blocks !!! 0%nat) !! i = running !! (19 - i)%nat.
Proof.
  intros Hlen Hwf. cbv zeta.
  do 8 (destruct blocks as [|? blocks]; [discriminate|]).
  destruct blocks; [|discriminate].
  repeat match goal with
         | H : Forall _ (_ :: _) |- _ =>
             let Hh := fresh "W" in
             pose proof (Forall_inv H) as Hh; apply Forall_inv_tail in H
         end.
  rewrite combine_8.
  cbn [foldl seq lookup_total list_lookup_total].
  rewrite !rotate_block_rotl by (assumption || lia).
  change (Z.of_nat 1) with 1. change (Z.of_nat 2) with 2.
  change (Z.of_nat 3) with 3. change (Z.of_nat 4) with 4.
  change (Z.of_nat 5) with 5. change (Z.of_nat 6) with 6.
  change (Z.of_nat 7) with 7.
  fold (xor l (rotl_block l0 1)).
  repeat match goal with
         | |- context [zip_with Z.lxor ?a ?b] => fold (xor a b)
         end.
  set (running := xor _ _).
  assert (Wr : wf_block running).
  { subst running. auto 20 using xor_wf, rotl_block_wf. }
  split; [reflexivity|].
  split.
  { subst running.
    rewrite !Z_of_block_xor_wf by auto 20 using xor_wf, rotl_block_wf.
    rewrite !Z_of_rotl_block_eq. reflexivity. }
  rewrite reverse_block_rev by apply Wr.
  split; [reflexivity|].
  intros i Hi. destruct Wr as [Hl _].
  rewrite rev_alt. change (rev_append running []) with (reverse running).
  rewrite reverse_lookup by (rewrite Hl; exact Hi).
  rewrite Hl. reflexivity.
Qed.

Lemma C7_rotate_and_combine_witness :
  let blocks : list (list Z) := (fun k => Z.of_nat <$> seq (20 * k) 20) <$> seq 0 8 in
  length blocks = 8%nat /\ Forall wf_block blocks /\
  combine blocks !!! 0%nat
  = [143; 71; 70; 184; 149; 102; 103; 153; 140; 79; 78; 176; 125; 135; 134;
     120; 61; 193; 192; 62] /\
  reverse_block (combine blocks !!! 0%nat)
  = [62; 192; 193; 61; 120; 134; 135; 125; 176; 78; 79; 140; 153; 103; 102;
     149; 184; 70; 71; 143].
Proof.
  cbv zeta.
  assert (Hwf : Forall wf_block ((fun k => Z.of_nat <$> seq (20 * k) 20) <$> seq 0 8)).
  { repeat constructor; vm_compute; intuition discriminate. }
  split; [reflexivity|]. split; [exact Hwf|].
  assert (Hlen : length ((fun k => Z.of_nat <$> seq (20 * k) 20) <$> seq 0 8) = 8%nat)
    by reflexivity.
  destruct (C7_rotate_and_combine _ Hlen Hwf) as (Hc & _ & Hr & _).
  rewrite Hr, Hc. split; vm_compute; reflexivity.
Defined.

(** * Length Fold *)

(** C3, as stated, fails: for a counter of 1 the most significant byte is 0
    and the least significant is 1; the loop puts the 1 at byte index 7, the
    highest of the eight, and the most significant byte at index 0. *)
Lemma C3_msb_position_counterexample :
  length_block 1 = [0; 0; 0; 0; 0; 0; 0; 1; 0; 0; 0; 0; 0; 0; 0; 0; 0; 0; 0; 0] /\
  length_block_msb_at_7 1
    = [1; 0; 0; 0; 0; 0; 0; 0; 0; 0; 0; 0; 0; 0; 0; 0; 0; 0; 0; 0] /\
  length_block 1 !!! 7%nat <> uint8 (Z.shiftr 1 56) /\
  length_block 1 <> length_block_msb_at_7 1.
Proof. vm_compute. repeat split; discriminate. Qed.

Lemma rotate_loop_length (shift : Z) (block : list Z) (carry : Z) :
  length (rotate_loop shift carry block).1 = length block.
Proof.
  revert carry. induction block as [|b block IH]; intros carry; [reflexivity|].
  cbn [rotate_loop]. specialize (IH (uint8 (Z.shiftr b (uint64 (8 - shift))))).
  destruct (rotate_loop shift _ block) as [rest' carry']. cbn in *. congruence.
Qed.

Lemma rotate_block_length (block : list Z) (shift : Z) :
  length (rotate_block block shift) = length block.
Proof.
  unfold rotate_block. pose proof (rotate_loop_length shift block 0) as H.
  destruct (rotate_loop shift 0 block) as [block' carry]. cbn [fst] in H.
  rewrite length_insert. exact H.
Qed.

Lemma combined_length (hash_data : list Z) :
  length hash_data = BLOCK_UNIT_SIZE -> length (combined hash_data) = BYTES_PER_BLOCK.
Proof.
  intros Hlen. unfold combined. rewrite (scatter_lanes _ Hlen).
  cbn [fmap list_fmap seq]. rewrite combine_8. cbn [lookup_total list_lookup_total].
  unfold xor. rewrite !length_zip_with, !rotate_block_length, !lane_block_length.
  reflexivity.
Qed.

(** C3, amended: Length Fold builds a zero 20-byte block, writes the 64-bit
    counter into byte indices 0 to 7 in big-endian order, most significant
    byte at index 0 and least significant at index 7, leaves the other
    twelve bytes zero, and exclusive-ors this block, byte by byte, into the
    byte-reversed combined result; that is the digest returned. *)
Theorem C3_length_fold (count : Z) (hash_data : list Z) :
  length hash_data = BLOCK_UNIT_SIZE ->
  length_block count =
    [uint8 (Z.shiftr count 56); uint8 (Z.shiftr count 48);
     uint8 (Z.shiftr count 40); uint8 (Z.shiftr count 32);
     uint8 (Z.shiftr count 24); uint8 (Z.shiftr count 16);
     uint8 (Z.shiftr count 8); uint8 (Z.shiftr count 0)] ++ replicate 12 0 /\
  finish count hash_data =
    zip_with Z.lxor
      (rev (combined hash_data))
      ([uint8 (Z.shiftr count 56); uint8 (Z.shiftr count 48);
        uint8 (Z.shiftr count 40); uint8 (Z.shiftr count 32);
        uint8 (Z.shiftr count 24); uint8 (Z.shiftr count 16);
        uint8 (Z.shiftr count 8); uint8 (Z.shiftr count 0)] ++ replicate 12 0).
Proof.
  intros Hlen. split; [apply length_block_eq|].
  rewrite (finish_eq _ _ Hlen), reverse_block_rev by (apply combined_length, Hlen).
  rewrite length_block_eq. reflexivity.
Qed.

Lemma C3_length_fold_witness :
  let hash_data := Z.of_nat <$> seq 0 BLOCK_UNIT_SIZE in
  length hash_data = BLOCK_UNIT_SIZE /\
  rev (combined hash_data)
  = [14; 194; 249; 124; 18; 161; 117; 13; 132; 147; 179; 85; 71; 139; 208; 89;
     46; 6; 225; 255] /\
  finish 258 hash_data
  = [14; 194; 249; 124; 18; 161; 116; 15; 132; 147; 179; 85; 71; 139; 208; 89;
     46; 6; 225; 255].
Proof.
  cbv zeta.
  assert (Hlen : length (Z.of_nat <$> seq 0 BLOCK_UNIT_SIZE) = BLOCK_UNIT_SIZE)
    by reflexivity.
  split; [exact Hlen|]. split; [vm_compute; reflexivity|].
  destruct (C3_length_fold 258 _ Hlen) as [_ ->].
  vm_compute. reflexivity.
Defined.

(** * Empty input *)

(** C10: on a stream that delivers nothing the accumulator stays zero, the
    blocks scattered from it are zero, so is their combination, the length
    block of a zero counter is zero, and the digest is twenty zero bytes. *)
Theorem C10_empty_input :
  read_loop (stream_of []) 0 (replicate BLOCK_UNIT_SIZE 0)
    = (0, replicate BLOCK_UNIT_SIZE 0) /\
  scatter (replicate BLOCK_UNIT_SIZE 0) = replicate 8 (replicate 20 0) /\
  combined (replicate BLOCK_UNIT_SIZE 0) = replicate 20 0 /\
  reverse_block (replicate 20 0) = replicate 20 0 /\
  length_block 0 = replicate 20 0 /\
  quick_xor_hash (stream_of []) = replicate 20 0.
Proof. vm_compute. repeat split. Qed.

(** * Files that cannot be opened *)

Lemma quick_xor_hash_not_good (p : list byte) :
  quick_xor_hash {| good := false; pending := p |} = replicate 20 0.
Proof.
  unfold quick_xor_hash.
  rewrite (read_loop_short {| good := false; pending := p |}
             {| good := false; pending := p |} [] _ _ eq_refl)
    by discriminate.
  vm_compute. reflexivity.
Qed.

(** C5 does not hold of the code: when the file cannot be opened, [main]
    prints the digest of the empty input and exits with code 0; nothing is
    written to standard error. *)
Theorem C5_missing_file_exits_0 (fs : string -> option (list byte))
        (program filename : string) :
  fs filename = None ->
  main fs [program; filename] =
  {| exit_code := 0; stdout := zero_digest_line; stderr := "" |}.
Proof.
  intros Hfs. unfold main, quick_xor_hash_file, ifstream. cbn [length nth Nat.eqb negb].
  rewrite Hfs, quick_xor_hash_not_good. vm_compute. reflexivity.
Qed.

Lemma C5_missing_file_exits_0_witness :
  main (fun _ => None) ["quick_xor_hash.exe"; "missing.bin"]%string =
  {| exit_code := 0; stdout := zero_digest_line; stderr := "" |}.
Proof.
  apply (C5_missing_file_exits_0 (fun _ => None)). reflexivity.
Defined.

(** * Accumulation *)

Lemma counter_eq (rgb : list byte) : counter rgb = uint64 (Z.of_nat (length rgb)).
Proof.
  unfold counter.
  destruct (read_loop_stream rgb 0 (replicate BLOCK_UNIT_SIZE 0)
              (length_replicate _ _) (zeros_bytes _)) as (Hc & _).
  rewrite Hc. reflexivity.
Qed.

Lemma accumulator_lanes (rgb : list byte) :
  accumulator rgb =
  (fun m => lane_xor m 0 (byte_val <$> rgb)) <$> seq 0 BLOCK_UNIT_SIZE.
Proof.
  unfold accumulator.
  destruct (read_loop_stream rgb 0 (replicate BLOCK_UNIT_SIZE 0)
              (length_replicate _ _) (zeros_bytes _)) as (_ & Hl & _ & _ & Hm).
  etransitivity; [apply (list_as_fmap _ _ Hl)|].
  apply list_fmap_ext. intros i m [-> Hi]%lookup_seq.
  change (0 + i)%nat with i. cbv beta.
  rewrite (Hm _ Hi), lookup_total_replicate_2 by exact Hi.
  apply Z.lxor_0_l.
Qed.

Lemma accumulator_wf (rgb : list byte) :
  length (accumulator rgb) = BLOCK_UNIT_SIZE /\ Forall is_byte (accumulator rgb).
Proof.
  unfold accumulator.
  destruct (read_loop_stream rgb 0 (replicate BLOCK_UNIT_SIZE 0)
              (length_replicate _ _) (zeros_bytes _)) as (_ & Hl & Hb & _).
  split; assumption.
Qed.

Lemma bytes_fmap_byte_val (l : list byte) : Forall is_byte (byte_val <$> l).
Proof. apply Forall_fmap, Forall_forall. intros; apply byte_val_byte. Qed.

(** C6: the read loop folds input byte [i] into accumulator position
    [i mod 160]; a terminal chunk shorter than 160 bytes is folded in as if
    padded with zeros, a full chunk is folded in on top of what the rest of
    the stream gives; the counter ends as the number of input bytes; an
    empty stream leaves counter 0 and a zero accumulator. *)
Theorem C6_accumulation (rgb : list byte) :
  Z.of_nat (length rgb) < 2 ^ 64 ->
  read_loop (stream_of rgb) 0 (replicate BLOCK_UNIT_SIZE 0)
    = (Z.of_nat (length rgb),
       (fun m => lane_xor m 0 (byte_val <$> rgb)) <$> seq 0 BLOCK_UNIT_SIZE) /\
  ((length rgb < BLOCK_UNIT_SIZE)%nat ->
   accumulator rgb = (byte_val <$> rgb) ++ replicate (BLOCK_UNIT_SIZE - length rgb) 0) /\
  (forall chunk rest, rgb = chunk ++ rest -> length chunk = BLOCK_UNIT_SIZE ->
   accumulator rgb = zip_with Z.lxor (byte_val <$> chunk) (accumulator rest)) /\
  read_loop (stream_of []) 0 (replicate BLOCK_UNIT_SIZE 0)
    = (0, replicate BLOCK_UNIT_SIZE 0).
Proof.
  intros Hlen. repeat split.
  - rewrite (surjective_pairing (read_loop _ _ _)).
    fold (counter rgb). fold (accumulator rgb).
    rewrite counter_eq, accumulator_lanes. f_equal.
    unfold uint64. apply Z.mod_small. lia.
  - intros Hshort. destruct (accumulator_wf rgb) as [Hal _].
    apply list_eq_same_length with BLOCK_UNIT_SIZE; [|assumption|].
    + rewrite length_app, length_fmap, length_replicate. lia.
    + intros i x y Hi Hx Hy.
      apply list_lookup_total_correct in Hx, Hy. subst x y.
      rewrite accumulator_lanes, lookup_total_fmap_seq by lia.
      rewrite <- padded_lookup by (rewrite ?length_fmap; lia).
      unfold padded. rewrite length_fmap. reflexivity.
  - intros chunk rest -> Hchunk.
    destruct (accumulator_wf (chunk ++ rest)) as [Hal _].
    destruct (accumulator_wf rest) as [Har _].
    apply list_eq_same_length with BLOCK_UNIT_SIZE; [|assumption|].
    + rewrite length_zip_with, length_fmap. lia.
    + intros i x y Hi Hx Hy.
      apply list_lookup_total_correct in Hx, Hy. subst x y.
      rewrite (@lookup_total_zip_with Z Z Z Z.lxor _ _ _)
        by (rewrite ?length_fmap; lia).
      rewrite !accumulator_lanes, !lookup_total_fmap_seq by lia.
      rewrite fmap_app, lane_xor_app, length_fmap, Hchunk.
      rewrite (lane_xor_period i 0). f_equal.
      rewrite <- padded_lookup by (rewrite ?length_fmap; lia).
      rewrite padded_full by (rewrite length_fmap; exact Hchunk). reflexivity.
Qed.

Lemma C6_accumulation_witness :
  let rgb := repeat "a"%byte 161 in
  Z.of_nat (length rgb) < 2 ^ 64 /\
  read_loop (stream_of rgb) 0 (replicate BLOCK_UNIT_SIZE 0)
    = (161, 0 :: replicate 159 97).
Proof.
  cbv zeta. split; [vm_compute; reflexivity|].
  assert (Hlt : Z.of_nat (length (repeat "a"%byte 161)) < 2 ^ 64)
    by (vm_compute; reflexivity).
  destruct (C6_accumulation (repeat "a"%byte 161) Hlt) as [-> _].
  vm_compute. reflexivity.
Defined.

(** * Length sensitivity *)

Lemma zip_lxor_cancel_l (a b c : list Z) :
  length a = length b -> length a = length c ->
  zip_with Z.lxor a b = zip_with Z.lxor a c -> b = c.
Proof.
  revert b c. induction a as [|x a IH]; intros [|y b] [|z c] Hb Hc Heq;
    try discriminate; [reflexivity|].
  cbn [zip_with] in Heq. injection Heq as Hhd Htl.
  injection Hb as Hb. injection Hc as Hc. f_equal.
  - apply (f_equal (Z.lxor x)) in Hhd.
    rewrite <- !Z.lxor_assoc, Z.lxor_nilpotent, !Z.lxor_0_l in Hhd. exact Hhd.
  - apply IH; assumption.
Qed.

Lemma length_block_bytes (count : Z) :
  bytes_of_Z 8 count = rev (take 8 (length_block count)).
Proof. rewrite length_block_eq. reflexivity. Qed.

(** The length block determines the counter. *)
Lemma length_block_inj (c1 c2 : Z) :
  0 <= c1 -> 0 <= c2 -> length_block c1 = length_block c2 -> uint64 c1 = uint64 c2.
Proof.
  intros H1 H2 Heq. unfold uint64.
  change 64 with (8 * Z.of_nat 8).
  rewrite <- !Z_of_bytes_of_Z, !length_block_bytes, Heq by assumption.
  reflexivity.
Qed.

Lemma rot_fold_zero_bytes (i k : nat) :
  rot_fold i (byte_val <$> replicate k "000"%byte) = 0.
Proof. rewrite fmap_replicate. apply rot_fold_zeros. Qed.

Lemma lane_xor_zeros (m i k : nat) : lane_xor m i (replicate k 0) = 0.
Proof.
  revert i. induction k as [|k IH]; intros i; cbn [replicate lane_xor]; [reflexivity|].
  rewrite IH. destruct (decide _); reflexivity.
Qed.

(** Zero bytes at the end of the stream change neither the accumulator nor
    the reference fold. *)
Lemma trailing_zeros (rgb : list byte) (k : nat) :
  accumulator (rgb ++ replicate k "000"%byte) = accumulator rgb /\
  rot_fold 0 (byte_val <$> rgb ++ replicate k "000"%byte)
  = rot_fold 0 (byte_val <$> rgb).
Proof.
  split.
  - rewrite !accumulator_lanes. apply list_fmap_ext. intros _ m _.
    rewrite fmap_app, lane_xor_app, fmap_replicate.
    change (byte_val "000") with 0. rewrite lane_xor_zeros. apply Z.lxor_0_r.
  - rewrite fmap_app, rot_fold_app, rot_fold_zero_bytes. apply Z.lxor_0_r.
Qed.

(** C9: zero bytes appended to the input leave the accumulator, and with it
    the scattered, combined and reversed block, as they were; when the two
    lengths differ modulo [2 ^ 64] the length blocks differ, and so do the
    digests. *)
Theorem C9_trailing_zeros_change_digest (rgb : list byte) (k : nat) :
  (1 <= k)%nat ->
  Z.of_nat (length rgb + k) mod 2 ^ 64 <> Z.of_nat (length rgb) mod 2 ^ 64 ->
  let longer := rgb ++ replicate k "000"%byte in
  accumulator longer = accumulator rgb /\
  (exists block,
      wf_block block /\
      quick_xor_hash (stream_of longer) = xor block (length_block (counter longer)) /\
      quick_xor_hash (stream_of rgb) = xor block (length_block (counter rgb))) /\
  length_block (counter longer) <> length_block (counter rgb) /\
  quick_xor_hash (stream_of longer) <> quick_xor_hash (stream_of rgb).
Proof.
  intros Hk Hdiff. cbv zeta.
  destruct (trailing_zeros rgb k) as [Hacc Hfold].
  assert (Hlb : length_block (counter (rgb ++ replicate k "000"%byte))
                <> length_block (counter rgb)).
  { rewrite !counter_eq, !length_block_uint64. intros Heq.
    apply length_block_inj in Heq; [|lia..].
    apply Hdiff. unfold uint64 in Heq.
    rewrite length_app, length_replicate in Heq. exact Heq. }
  assert (H1 := quick_xor_hash_closed (rgb ++ replicate k "000"%byte)).
  assert (H2 := quick_xor_hash_closed rgb).
  rewrite Hfold, <- counter_eq in H1. rewrite <- counter_eq in H2.
  set (block := rev (block_of_Z (rot_fold 0 (byte_val <$> rgb)))) in *.
  assert (Hwf : wf_block block) by (apply rev_wf, block_of_Z_wf).
  split; [exact Hacc|]. split; [exists block; auto|]. split; [exact Hlb|].
  rewrite H1, H2. intros Heq. apply Hlb.
  apply (zip_lxor_cancel_l block); [| |exact Heq].
  - destruct Hwf as [-> _]. symmetry. apply length_block_wf.
  - destruct Hwf as [-> _]. symmetry. apply length_block_wf.
Qed.

Lemma C9_trailing_zeros_change_digest_witness :
  let rgb := ["001"%byte] in
  (1 <= 1)%nat /\
  Z.of_nat (length rgb + 1) mod 2 ^ 64 <> Z.of_nat (length rgb) mod 2 ^ 64 /\
  quick_xor_hash (stream_of (rgb ++ replicate 1 "000"%byte))
  <> quick_xor_hash (stream_of rgb).
Proof.
  cbv zeta.
  assert (Hdiff : Z.of_nat (length ["001"%byte] + 1) mod 2 ^ 64
                  <> Z.of_nat (length ["001"%byte]) mod 2 ^ 64)
    by (vm_compute; discriminate).
  split; [lia|]. split; [exact Hdiff|].
  apply (C9_trailing_zeros_change_digest ["001"%byte] 1 (le_n 1) Hdiff).
Defined.

(** * The streaming implementation and the reference *)

(** C1: for every byte sequence, the digest [quick_xor_hash] computes from a
    stream delivering it is the block [XorHash] gives, held in the array
    with the low-order byte at index 0: read from index 19 down to 0, as
    [main] prints it, the digest is the reference block byte for byte. *)
Theorem C1_streaming_equals_reference (rgb : list byte) :
  quick_xor_hash (stream_of rgb) = stored (Ref.XorHash rgb) /\
  rev (quick_xor_hash (stream_of rgb)) = Ref.XorHash rgb.
Proof.
  rewrite quick_xor_hash_ref. split; [reflexivity|].
  unfold stored. apply rev_involutive.
Qed.

(** * Further properties of the code *)

Lemma byte_val_inj (a b : byte) : byte_val a = byte_val b -> a = b.
Proof.
  unfold byte_val. intros H. apply N2Z.inj in H.
  pose proof (Byte.of_to_N a) as Ha. rewrite H, Byte.of_to_N in Ha.
  congruence.
Qed.

Lemma lxor_cancel_l (a x y : Z) : Z.lxor a x = Z.lxor a y -> x = y.
Proof.
  intros H. apply (f_equal (Z.lxor a)) in H.
  rewrite <- !Z.lxor_assoc, Z.lxor_nilpotent, !Z.lxor_0_l in H. exact H.
Qed.

(** Rotation loses nothing. *)
Lemma rotl160_inj (u v n : Z) :
  in160 u -> in160 v -> rotl160 u n = rotl160 v n -> u = v.
Proof.
  intros Hu Hv H. apply (f_equal (fun w => rotl160 w (- n))) in H.
  rewrite !rotl160_rotl160, Z.add_opp_diag_r, !rotl160_0_r in H; assumption.
Qed.

Lemma block_of_Z_inj (u v : Z) :
  in160 u -> in160 v -> block_of_Z u = block_of_Z v -> u = v.
Proof.
  intros Hu Hv H. rewrite <- (Z_of_block_of_Z u Hu), <- (Z_of_block_of_Z v Hv), H.
  reflexivity.
Qed.

Lemma rev_inj (a b : list Z) : rev a = rev b -> a = b.
Proof.
  intros H. rewrite <- (rev_involutive a), <- (rev_involutive b), H. reflexivity.
Qed.

(** Two streams of the same length have the same digest exactly when their
    reference folds agree. *)
Lemma same_length_digest (x y : list byte) :
  length x = length y ->
  quick_xor_hash (stream_of x) = quick_xor_hash (stream_of y) <->
  rot_fold 0 (byte_val <$> x) = rot_fold 0 (byte_val <$> y).
Proof.
  intros Hlen. rewrite !quick_xor_hash_closed, Hlen. split.
  - intros H. unfold xor in H.
    rewrite (zip_with_lxor_comm (rev (block_of_Z (rot_fold 0 (byte_val <$> x))))),
            (zip_with_lxor_comm (rev (block_of_Z (rot_fold 0 (byte_val <$> y))))) in H.
    apply zip_lxor_cancel_l in H.
    + apply rev_inj, block_of_Z_inj in H; auto using rot_fold_in160.
    + rewrite (proj1 (length_block_wf _)). symmetry. apply rev_wf, block_of_Z_wf.
    + rewrite (proj1 (length_block_wf _)). symmetry. apply rev_wf, block_of_Z_wf.
  - intros ->. reflexivity.
Qed.

(** Replacing one byte of the input by a different byte always changes the
    digest. *)
Theorem one_byte_changes_digest (before after : list byte) (b b' : byte) :
  b <> b' ->
  quick_xor_hash (stream_of (before ++ b :: after))
  <> quick_xor_hash (stream_of (before ++ b' :: after)).
Proof.
  intros Hne Heq. apply Hne.
  apply same_length_digest in Heq; [|rewrite !length_app; reflexivity].
  rewrite !fmap_app, !rot_fold_app in Heq. cbn [fmap list_fmap rot_fold] in Heq.
  apply lxor_cancel_l in Heq.
  rewrite (Z.lxor_comm (rotl160 (byte_val b) _)),
          (Z.lxor_comm (rotl160 (byte_val b') _)) in Heq.
  apply lxor_cancel_l in Heq.
  apply rotl160_inj in Heq; auto using in160_byte, byte_val_byte.
  apply byte_val_inj, Heq.
Qed.

Lemma one_byte_changes_digest_witness :
  quick_xor_hash (stream_of ([] ++ "a"%byte :: ["c"%byte]))
  <> quick_xor_hash (stream_of ([] ++ "b"%byte :: ["c"%byte])).
Proof.
  apply (one_byte_changes_digest [] ["c"%byte] "a"%byte "b"%byte). discriminate.
Defined.

(** Two full 160-byte chunks of the input can be exchanged without changing
    the digest: the accumulator folds every chunk onto the same 160
    positions. *)
Theorem chunk_order_is_lost (chunk1 chunk2 rest : list byte) :
  length chunk1 = BLOCK_UNIT_SIZE -> length chunk2 = BLOCK_UNIT_SIZE ->
  quick_xor_hash (stream_of (chunk1 ++ chunk2 ++ rest))
  = quick_xor_hash (stream_of (chunk2 ++ chunk1 ++ rest)).
Proof.
  intros H1 H2. apply same_length_digest.
  - rewrite !length_app. lia.
  - rewrite !fmap_app, !rot_fold_app, !length_fmap, H1, H2.
    rewrite !(rot_fold_period 0). cbn [Nat.add].
    rewrite <- !Z.lxor_assoc. f_equal. apply Z.lxor_comm.
Qed.

Lemma chunk_order_is_lost_witness :
  let chunk1 := repeat "a"%byte 160 in
  let chunk2 := repeat "b"%byte 160 in
  length chunk1 = BLOCK_UNIT_SIZE /\ length chunk2 = BLOCK_UNIT_SIZE /\
  chunk1 ++ chunk2 ++ ["c"%byte] <> chunk2 ++ chunk1 ++ ["c"%byte] /\
  quick_xor_hash (stream_of (chunk1 ++ chunk2 ++ ["c"%byte]))
  = quick_xor_hash (stream_of (chunk2 ++ chunk1 ++ ["c"%byte])).
Proof.
  cbv zeta. split; [reflexivity|]. split; [reflexivity|]. split; [discriminate|].
  apply (chunk_order_is_lost (repeat "a"%byte 160) (repeat "b"%byte 160) ["c"%byte]);
    reflexivity.
Defined.

(** A stream that is not good when it is handed over gives the digest of
    the empty input, whatever it holds: the first read extracts nothing. *)
Theorem failed_stream_digest (held : list byte) :
  quick_xor_hash {| good := false; pending := held |}
  = quick_xor_hash (stream_of []).
Proof.
  rewrite quick_xor_hash_not_good. vm_compute. reflexivity.
Qed.

Lemma quick_xor_hash_wf (input : istream) : wf_block (quick_xor_hash input).
Proof.
  destruct input as [[] held].
  - change (wf_block (quick_xor_hash (stream_of held))).
    rewrite quick_xor_hash_closed.
    apply xor_wf; [apply rev_wf, block_of_Z_wf | apply length_block_wf].
  - rewrite quick_xor_hash_not_good.
    split; [reflexivity | apply (zeros_bytes 20)].
Qed.

(** Whatever the state of the stream, the digest is twenty bytes. *)
Theorem digest_is_20_bytes (input : istream) :
  length (quick_xor_hash input) = 20%nat /\
  Forall (fun b => 0 <= b < 256) (quick_xor_hash input).
Proof. apply quick_xor_hash_wf. Qed.

(** The counter wraps: it ends as the number of bytes modulo [2 ^ 64]. *)
Theorem counter_wraps (rgb : list byte) :
  counter rgb = Z.of_nat (length rgb) mod 2 ^ 64.
Proof. apply counter_eq. Qed.

(** Scatter and Rotate-and-Combine together: the number held by the running
    result is the exclusive or of every accumulator byte rotated left by
    eleven times its index. *)
Theorem combined_is_rotation_fold (hash_data : list Z) :
  length hash_data = BLOCK_UNIT_SIZE -> Forall is_byte hash_data ->
  Z_of_block (combined hash_data)
  = foldr Z.lxor 0
      ((fun m => rotl160 (hash_data !!! m) (Z.of_nat m * 11)) <$> seq 0 BLOCK_UNIT_SIZE).
Proof.
  intros Hlen Hb. destruct (combined_value hash_data Hlen Hb) as [_ ->].
  rewrite (list_as_fmap hash_data _ Hlen) at 1.
  apply rot_fold_fmap_seq.
Qed.

Lemma combined_is_rotation_fold_witness :
  length (Z.of_nat <$> seq 0 BLOCK_UNIT_SIZE) = BLOCK_UNIT_SIZE /\
  Forall is_byte (Z.of_nat <$> seq 0 BLOCK_UNIT_SIZE) /\
  Z_of_block (combined (Z.of_nat <$> seq 0 BLOCK_UNIT_SIZE))
  = foldr Z.lxor 0
      ((fun m => rotl160 ((Z.of_nat <$> seq 0 BLOCK_UNIT_SIZE) !!! m) (Z.of_nat m * 11))
         <$> seq 0 BLOCK_UNIT_SIZE).
Proof.
  assert (Hb : Forall is_byte (Z.of_nat <$> seq 0 BLOCK_UNIT_SIZE)).
  { apply Forall_fmap, Forall_forall. intros m Hm%list_elem_of_In%in_seq.
    unfold is_byte. cbn. change BLOCK_UNIT_SIZE with 160%nat in Hm. lia. }
  assert (Hlen : length (Z.of_nat <$> seq 0 BLOCK_UNIT_SIZE) = BLOCK_UNIT_SIZE)
    by reflexivity.
  split; [exact Hlen|]. split; [exact Hb|].
  apply (combined_is_rotation_fold _ Hlen Hb).
Defined.

(** [rotate_block] distributes over [xor]. *)
Theorem rotate_block_xor (a b : list Z) (n : Z) :
  wf_block a -> wf_block b -> 0 <= n <= 8 ->
  rotate_block (xor a b) n = xor (rotate_block a n) (rotate_block b n).
Proof.
  intros Ha Hb Hn.
  destruct (rotate_block_value a n Ha Hn) as [Wa Va].
  destruct (rotate_block_value b n Hb Hn) as [Wb Vb].
  destruct (rotate_block_value (xor a b) n (xor_wf a b Ha Hb) Hn) as [Wx Vx].
  apply Z_of_block_inj; [assumption | apply xor_wf; assumption |].
  rewrite Vx, !Z_of_block_xor_wf, Va, Vb by assumption.
  apply rotl160_lxor; apply Z_of_block_in160; assumption.
Qed.

Lemma rotate_block_xor_witness :
  let a := Z.of_nat <$> seq 100 20 in
  let b := Z.of_nat <$> seq 200 20 in
  wf_block a /\ wf_block b /\ 0 <= 3 <= 8 /\
  rotate_block (xor a b) 3 = xor (rotate_block a 3) (rotate_block b 3).
Proof.
  cbv zeta.
  assert (Ha : wf_block (Z.of_nat <$> seq 100 20))
    by (split; [reflexivity | repeat constructor; vm_compute; intuition discriminate]).
  assert (Hb : wf_block (Z.of_nat <$> seq 200 20))
    by (split; [reflexivity | repeat constructor; vm_compute; intuition discriminate]).
  split; [exact Ha|]. split; [exact Hb|]. split; [lia|].
  apply (rotate_block_xor _ _ 3 Ha Hb). lia.
Defined.

(** Two rotations in a row are one rotation by the sum, as long as the sum
    is a shift [rotate_block] can do; a rotation by 0 changes nothing. *)
Theorem rotate_block_twice (b : list Z) (m n : Z) :
  wf_block b -> 0 <= m -> 0 <= n -> m + n <= 8 ->
  rotate_block (rotate_block b m) n = rotate_block b (m + n) /\
  rotate_block b 0 = b.
Proof.
  intros Hb Hm Hn Hmn.
  destruct (rotate_block_value b m Hb ltac:(lia)) as [Wm Vm].
  destruct (rotate_block_value _ n Wm ltac:(lia)) as [Wn Vn].
  destruct (rotate_block_value b (m + n) Hb ltac:(lia)) as [Ws Vs].
  destruct (rotate_block_value b 0 Hb ltac:(lia)) as [W0 V0].
  split.
  - apply Z_of_block_inj; [assumption..|].
    rewrite Vn, Vm, Vs. apply rotl160_rotl160, Z_of_block_in160, Hb.
  - apply Z_of_block_inj; [assumption..|].
    rewrite V0. apply rotl160_0_r, Z_of_block_in160, Hb.
Qed.

Lemma rotate_block_twice_witness :
  let b := Z.of_nat <$> seq 100 20 in
  wf_block b /\ 0 <= 3 /\ 0 <= 5 /\ 3 + 5 <= 8 /\
  rotate_block (rotate_block b 3) 5 = rotate_block b (3 + 5).
Proof.
  cbv zeta.
  assert (Hb : wf_block (Z.of_nat <$> seq 100 20))
    by (split; [reflexivity | repeat constructor; vm_compute; intuition discriminate]).
  split; [exact Hb|]. split; [lia|]. split; [lia|]. split; [lia|].
  apply (rotate_block_twice _ 3 5 Hb); lia.
Defined.

Lemma rotate_loop_8 (block : list Z) :
  Forall is_byte block ->
  forall carry, is_byte carry ->
  rotate_loop 8 carry block
  = (removelast (carry :: block), List.last (carry :: block) 0).
Proof.
  induction 1 as [|x block Hx Hb IH]; intros carry Hc; [reflexivity|].
  cbn [rotate_loop].
  assert (Ht : uint8 (Z.shiftr x (uint64 (8 - 8))) = x).
  { change (uint64 (8 - 8)) with 0. rewrite Z.shiftr_0_r. apply uint8_small, Hx. }
  assert (Hs : uint8 (Z.lor (Z.shiftl x 8) carry) = carry).
  { unfold is_byte in Hc. rewrite lor_shiftl_add by lia. unfold uint8.
    rewrite Z.add_comm, Z_mod_plus_full. apply Z.mod_small. lia. }
  rewrite Ht, Hs, (IH x Hx). reflexivity.
Qed.

(** A rotation by eight bits moves every byte one index up and the last
    byte to index 0. *)
Theorem rotate_block_by_8 (block : list Z) (top : Z) :
  Forall is_byte block -> is_byte top ->
  rotate_block (block ++ [top]) 8 = top :: block.
Proof.
  intros Hb Ht. unfold rotate_block.
  assert (Hall : Forall is_byte (block ++ [top]))
    by (apply Forall_app; split; [assumption | constructor; [assumption | constructor]]).
  rewrite (rotate_loop_8 _ Hall 0) by (unfold is_byte; lia).
  change (0 :: block ++ [top]) with ((0 :: block) ++ [top]).
  rewrite List.last_last, removelast_last. cbn. reflexivity.
Qed.

Lemma rotate_block_by_8_witness :
  let block := Z.of_nat <$> seq 1 19 in
  Forall is_byte block /\ is_byte 200 /\
  rotate_block (block ++ [200]) 8 = 200 :: block.
Proof.
  cbv zeta.
  assert (Hb : Forall is_byte (Z.of_nat <$> seq 1 19))
    by (repeat constructor; vm_compute; intuition discriminate).
  assert (Ht : is_byte 200) by (unfold is_byte; lia).
  split; [exact Hb|]. split; [exact Ht|].
  apply (rotate_block_by_8 _ 200 Hb Ht).
Defined.

(** Reversing a block twice gives the block back. *)
Theorem reverse_block_twice (block : list Z) :
  length block = BYTES_PER_BLOCK ->
  reverse_block (reverse_block block) = block.
Proof.
  intros Hlen. rewrite (reverse_block_rev block Hlen).
  rewrite reverse_block_rev by (rewrite length_rev; exact Hlen).
  apply rev_involutive.
Qed.

Lemma reverse_block_twice_witness :
  length (Z.of_nat <$> seq 1 20) = BYTES_PER_BLOCK /\
  reverse_block (Z.of_nat <$> seq 1 20) = rev (Z.of_nat <$> seq 1 20) /\
  reverse_block (reverse_block (Z.of_nat <$> seq 1 20)) = Z.of_nat <$> seq 1 20.
Proof.
  assert (Hlen : length (Z.of_nat <$> seq 1 20) = BYTES_PER_BLOCK) by reflexivity.
  split; [exact Hlen|]. split; [reflexivity|].
  apply (reverse_block_twice _ Hlen).
Defined.

(** [xor] with the same block twice gives the first block back, and the
    order of the operands does not matter. *)
Theorem xor_twice (lhs rhs : list Z) :
  length lhs = length rhs ->
  xor (xor lhs rhs) rhs = lhs /\ xor lhs rhs = xor rhs lhs.
Proof.
  intros Hlen. split; [|apply zip_with_lxor_comm].
  unfold xor. revert rhs Hlen.
  induction lhs as [|x lhs IH]; intros [|y rhs] Hlen; try discriminate; [reflexivity|].
  injection Hlen as Hlen. cbn [zip_with].
  rewrite (IH rhs Hlen), Z.lxor_assoc, Z.lxor_nilpotent, Z.lxor_0_r. reflexivity.
Qed.

Lemma xor_twice_witness :
  length [1; 2; 3] = length [7; 7; 7] /\
  xor (xor [1; 2; 3] [7; 7; 7]) [7; 7; 7] = [1; 2; 3].
Proof.
  split; [reflexivity|]. apply (xor_twice [1; 2; 3] [7; 7; 7]). reflexivity.
Defined.

(** The length block tells two counters apart exactly when they differ
    modulo [2 ^ 64]. *)
Theorem length_block_separates (c1 c2 : Z) :
  0 <= c1 -> 0 <= c2 ->
  length_block c1 = length_block c2 <-> c1 mod 2 ^ 64 = c2 mod 2 ^ 64.
Proof.
  intros H1 H2. split.
  - apply length_block_inj; assumption.
  - intros Heq. rewrite <- (length_block_uint64 c1), <- (length_block_uint64 c2).
    unfold uint64. rewrite Heq. reflexivity.
Qed.

Lemma length_block_separates_witness :
  0 <= 5 /\ 0 <= 2 ^ 64 + 5 /\ length_block 5 = length_block (2 ^ 64 + 5).
Proof.
  split; [lia|]. split; [lia|].
  apply (length_block_separates 5 (2 ^ 64 + 5)); [lia | lia | reflexivity].
Defined.

(** * Properties of the command-line program *)

(** [main] exits with 1 when it is not given exactly one argument and with
    0 otherwise; it never exits with 2, and it writes to standard error
    only in the first case. *)
Theorem main_exit_code (fs : string -> option (list byte)) (argv : list string) :
  exit_code (main fs argv) = (if Nat.eqb (length argv) 2 then 0 else 1) /\
  exit_code (main fs argv) <> 2 /\
  (stderr (main fs argv) = EmptyString <-> length argv = 2%nat).
Proof.
  unfold main, quick_xor_hash_file.
  destruct (Nat.eqb_spec (length argv) 2) as [Heq | Hne]; cbn.
  - repeat split; auto; discriminate.
  - repeat split; try discriminate; contradiction.
Qed.

(** Given one argument that names a file that can be opened, [main] prints
    the reference block of the file's content, high-order byte first, in
    lowercase hexadecimal, and exits with 0. *)
Theorem main_prints_reference (fs : string -> option (list byte))
        (program filename : string) (content : list byte) :
  fs filename = Some content ->
  main fs [program; filename] =
  {| exit_code := 0;
     stdout := (hex_of (Ref.XorHash content) ++ endl)%string;
     stderr := EmptyString |}.
Proof.
  intros Hfs. unfold main, quick_xor_hash_file, ifstream.
  cbn [length nth Nat.eqb negb]. rewrite Hfs.
  fold (stream_of content). rewrite quick_xor_hash_ref.
  unfold stored. rewrite rev_involutive. reflexivity.
Qed.

Lemma main_prints_reference_witness :
  main (fun _ => Some ["a"; "a"; "a"]%byte) ["quick_xor_hash.exe"; "aaa.txt"]%string =
  {| exit_code := 0;
     stdout := ("6108431800000000000000000300000000000000" ++ endl)%string;
     stderr := EmptyString |}.
Proof.
  rewrite (main_prints_reference (fun _ => Some ["a"; "a"; "a"]%byte)
             "quick_xor_hash.exe" "aaa.txt" ["a"; "a"; "a"]%byte eq_refl).
  vm_compute. reflexivity.
Defined.



Lemma hex_digit_inj (d d' : Z) :
  0 <= d < 16 -> 0 <= d' < 16 -> hex_digit d = hex_digit d' -> d = d'.
Proof.
  intros Hd Hd' Heq. unfold hex_digit in Heq.
  apply (f_equal nat_of_ascii) in Heq.
  rewrite !nat_ascii_embedding in Heq
    by (destruct (d <? 10), (d' <? 10); lia).
  apply Z2Nat.inj in Heq;
    destruct (Z.ltb_spec d 10), (Z.ltb_spec d' 10); lia.
Qed.

Lemma hex2_inj (b b' : Z) : is_byte b -> is_byte b' -> hex2 b = hex2 b' -> b = b'.
Proof.
  unfold is_byte, hex2. intros Hb Hb' Heq. injection Heq as Hhi Hlo.
  apply hex_digit_inj in Hhi, Hlo;
    try (split; [apply Z.div_pos | apply Z.div_lt_upper_bound]; lia);
    try (apply Z.mod_pos_bound; lia).
  pose proof (Z.div_mod b 16 ltac:(lia)) as E1.
  pose proof (Z.div_mod b' 16 ltac:(lia)) as E2.
  rewrite Hhi, Hlo in E1. congruence.
Qed.

(** The text printed for a digest determines the digest. *)
Theorem hex_of_determines_block (a b : list Z) :
  Forall is_byte a -> Forall is_byte b -> hex_of a = hex_of b -> a = b.
Proof.
  intros Ha. revert b. induction Ha as [|x a Hx Ha IH]; intros b Hb Heq.
  - destruct Hb as [|y b Hy Hb]; [reflexivity | discriminate].
  - destruct Hb as [|y b Hy Hb]; [discriminate|].
    cbn [hex_of foldr] in Heq. fold (hex_of a) in Heq. fold (hex_of b) in Heq.
    unfold hex2 in Heq. cbn [String.append] in Heq.
    injection Heq as Hhi Hlo Htl. f_equal.
    + apply hex2_inj; [assumption..|]. unfold hex2. rewrite Hhi, Hlo. reflexivity.
    + apply IH; assumption.
Qed.

Lemma hex_of_determines_block_witness :
  Forall is_byte [97; 8] /\ Forall is_byte [byte_val "a"; 8] /\
  hex_of [97; 8] = hex_of [byte_val "a"; 8] /\
  [97; 8] = [byte_val "a"; 8].
Proof.
  assert (H : Forall is_byte [97; 8]) by (repeat constructor; unfold is_byte; lia).
  assert (H' : Forall is_byte [byte_val "a"; 8])
    by (repeat constructor; vm_compute; intuition discriminate).
  assert (Heq : hex_of [97; 8] = hex_of [byte_val "a"; 8]) by reflexivity.
  split; [exact H|]. split; [exact H'|]. split; [exact Heq|].
  exact (hex_of_determines_block [97; 8] [byte_val "a"; 8] H H' Heq).
Defined.

(** The digest of a one-byte input: the byte itself at index 19 and the
    length 1 at index 7. *)
Theorem digest_of_one_byte (b : byte) :
  quick_xor_hash (stream_of [b])
  = replicate 7 0 ++ [1] ++ replicate 11 0 ++ [byte_val b].
Proof.
  rewrite quick_xor_hash_closed. cbn [fmap list_fmap rot_fold length].
  change (Z.of_nat 0 * 11) with 0.
  rewrite Z.lxor_0_r, rotl160_0_r by apply in160_byte, byte_val_byte.
  assert (Hblock : block_of_Z (byte_val b) = byte_val b :: replicate 19 0).
  { rewrite <- (block_of_Z_of_block (byte_val b :: replicate 19 0)).
    - f_equal. cbn. lia.
    - split; [reflexivity|].
      constructor; [apply byte_val_byte | apply (zeros_bytes 19)]. }
  rewrite Hblock, length_block_eq. unfold xor.
  cbn [rev replicate app zip_with]. rewrite (Z.lxor_0_r (byte_val b)). reflexivity.
Qed.
